(** * Elevator simulator (elevator_sim.py): a shallow embedding

    The simulator keeps two elevator cars, a FIFO of incoming requests and an
    undo stack.  Every car owns two priority queues built on Python's [heapq]
    (a binary min-heap stored in a list), a current floor, a direction and a
    history of visited floors.

    The development follows the source file top to bottom:
    - [heapq]      : the list-based heap primitives the queues rely on;
    - [UpPQ], [DownPQ], [RequestQueue], [Stack], [LinkedList] : the containers;
    - [Elevator]   : [add_request], [has_pending], [move_to_next];
    - [assign_request_to_elevator] : the dispatcher;
    - the command branches of [run_interactive] : request, undo, step, auto,
      and what [print_status] shows.

    The properties come in two parts: the ones numbered C1 to C10, and further
    properties of the containers, of one car, of the dispatcher and of the
    commands, numbered X1 to X23. *)

From Stdlib Require Import ZArith List Lia ZifyNat Permutation Sorted.
From stdpp Require Import base numbers list strings sorting.

(** ** heapq: binary min-heap over a Python list

    The functions below transcribe [heappush], [heappop], [heapify],
    [_siftdown] and [_siftup] of the [heapq] module.  The heap is the list
    itself; [heap[i] = x] is [<[i:=x]> heap] and [heap[i]] is [heap !!! i]
    (every index the algorithms read is in range). *)
Module heapq.

(** The [while pos > startpos] loop of [_siftdown].  [pos] at least halves on
    every iteration, so [pos] iterations are always enough: when the counter
    reaches zero the loop condition is false as well (see [_siftdown_loop_fuel]). *)
Fixpoint _siftdown_loop (fuel : nat) (heap : list Z) (startpos pos : nat)
    (newitem : Z) : list Z :=
  match fuel with
  | O => <[pos := newitem]> heap
  | S fuel' =>
      if (startpos <? pos)%nat then
        let parentpos := ((pos - 1) / 2)%nat in
        let parent := heap !!! parentpos in
        if (newitem <? parent)%Z
        then _siftdown_loop fuel' (<[pos := parent]> heap) startpos parentpos newitem
        else <[pos := newitem]> heap
      else <[pos := newitem]> heap
  end.

Definition _siftdown (heap : list Z) (startpos pos : nat) : list Z :=
  let newitem := heap !!! pos in
  _siftdown_loop pos heap startpos pos newitem.

(** The [while childpos < endpos] loop of [_siftup]: the smaller child is
    bubbled up until a leaf is hit.  Returns the list and the final [pos].
    [pos] strictly grows and stays below [endpos], so [len(heap)] iterations
    are enough. *)
Fixpoint _siftup_loop (fuel : nat) (heap : list Z) (pos : nat) : list Z * nat :=
  match fuel with
  | O => (heap, pos)
  | S fuel' =>
      let endpos := length heap in
      let childpos := (2 * pos + 1)%nat in
      if (childpos <? endpos)%nat then
        let rightpos := (childpos + 1)%nat in
        let childpos :=
          if (rightpos <? endpos)%nat
             && negb (heap !!! childpos <? heap !!! rightpos)%Z
          then rightpos else childpos in
        _siftup_loop fuel' (<[pos := heap !!! childpos]> heap) childpos
      else (heap, pos)
  end.

Definition _siftup (heap : list Z) (pos : nat) : list Z :=
  let startpos := pos in
  let newitem := heap !!! pos in
  let '(heap, pos) := _siftup_loop (length heap) heap pos in
  _siftdown (<[pos := newitem]> heap) startpos pos.

Definition heappush (heap : list Z) (item : Z) : list Z :=
  let heap := heap ++ [item] in
  _siftdown heap 0 (length heap - 1).

(** [heappop] raises [IndexError] on an empty list: [None]. *)
Definition heappop (heap : list Z) : option (Z * list Z) :=
  match last heap with
  | None => None
  | Some lastelt =>
      let heap := removelast heap in
      match heap with
      | [] => Some (lastelt, heap)
      | returnitem :: _ => Some (returnitem, _siftup (<[0%nat := lastelt]> heap) 0)
      end
  end.

(** [for i in reversed(range(n//2)): _siftup(x, i)]; the argument counts the
    indices still to be visited. *)
Fixpoint heapify_loop (i : nat) (x : list Z) : list Z :=
  match i with
  | O => x
  | S i' => heapify_loop i' (_siftup x i')
  end.

Definition heapify (x : list Z) : list Z :=
  heapify_loop (length x / 2) x.

(** [list.remove(value)]: deletes the first occurrence, [ValueError] ([None])
    when there is none. *)
Fixpoint list_remove (value : Z) (l : list Z) : option (list Z) :=
  match l with
  | [] => None
  | x :: l' =>
      if (x =? value)%Z then Some l'
      else match list_remove value l' with
           | Some r => Some (x :: r)
           | None => None
           end
  end.

(** The heap invariant of the module's documentation,
    [heap[k] <= heap[2*k+1]] and [heap[k] <= heap[2*k+2]], read from the
    child's side: every item is at least its parent (see [is_heap_children]). *)
Definition is_heap (heap : list Z) : Prop :=
  forall j : nat, (0 < j < length heap)%nat ->
    (heap !!! ((j - 1) / 2)%nat <= heap !!! j)%Z.

End heapq.

Local Open Scope Z_scope.

Definition MIN_FLOOR : Z := -10.
Definition MAX_FLOOR : Z := 30.

(** ** Containers *)

(** [LinkedList]: the history log; [append] walks to the tail. *)
Module LinkedList.
Definition append (l : list Z) (floor : Z) : list Z := l ++ [floor].
Definition to_list (l : list Z) : list Z := l.
End LinkedList.

(** The class as it is written: [ListNode] objects chained through [next].
    [append] walks from the head to the last node and hangs the new node
    there; the walk is rebuilt functionally. *)
Module LinkedNodes.

#[warnings="-register-all"]
Inductive ListNode := Node (floor : Z) (next : option ListNode).

(** [self.head] *)
Definition t := option ListNode.

Definition empty : t := None.

(** [cur = self.head; while cur.next: cur = cur.next; cur.next = node] *)
Fixpoint append_after (cur : ListNode) (node : ListNode) : ListNode :=
  match cur with
  | Node f None => Node f (Some node)
  | Node f (Some next) => Node f (Some (append_after next node))
  end.

Definition append (head : t) (floor : Z) : t :=
  let node := Node floor None in
  match head with
  | None => Some node
  | Some h => Some (append_after h node)
  end.

(** [while cur: out.append(cur.floor); cur = cur.next] *)
Fixpoint walk (cur : ListNode) : list Z :=
  match cur with
  | Node f None => [f]
  | Node f (Some next) => f :: walk next
  end.

Definition to_list (head : t) : list Z :=
  match head with
  | None => []
  | Some h => walk h
  end.

End LinkedNodes.

(** [Stack]: a Python list, top of the stack at the end. *)
Module Stack.
Definition push {A} (data : list A) (x : A) : list A := data ++ [x].
Definition pop {A} (data : list A) : option A * list A :=
  match last data with
  | None => (None, data)
  | Some x => (Some x, removelast data)
  end.
Definition is_empty {A} (data : list A) : bool := (length data =? 0)%nat.
End Stack.

(** [UpPQ]: min-heap of floors. *)
Module UpPQ.
Definition push (heap : list Z) (floor : Z) : list Z := heapq.heappush heap floor.
Definition pop (heap : list Z) : option Z * list Z :=
    match heap with
    | [] => (None, heap)
    | _ :: _ =>
        match heapq.heappop heap with
        | Some (x, heap') => (Some x, heap')
        | None => (None, heap)
        end
  end.
Definition peek (heap : list Z) : option Z :=
    match heap with
    | [] => None
    | x :: _ => Some x
  end.
Definition empty (heap : list Z) : bool := (length heap =? 0)%nat.
Definition to_list (heap : list Z) : list Z := heap.
End UpPQ.

(** [DownPQ]: max-heap of floors, stored as a min-heap of negated floors. *)
Module DownPQ.
Definition push (heap : list Z) (floor : Z) : list Z := heapq.heappush heap (- floor).
Definition pop (heap : list Z) : option Z * list Z :=
    match heap with
    | [] => (None, heap)
    | _ :: _ =>
        match heapq.heappop heap with
        | Some (x, heap') => (Some (- x), heap')
        | None => (None, heap)
        end
  end.
Definition peek (heap : list Z) : option Z :=
    match heap with
    | [] => None
    | x :: _ => Some (- x)
  end.
Definition empty (heap : list Z) : bool := (length heap =? 0)%nat.
Definition to_list (heap : list Z) : list Z := map Z.opp heap.
End DownPQ.

(** [RequestQueue]: a deque used as a FIFO. *)
Module RequestQueue.
Definition push (q : list Z) (floor : Z) : list Z := q ++ [floor].
Definition pop (q : list Z) : option Z * list Z :=
    match q with
    | [] => (None, q)
    | x :: q' => (Some x, q')
  end.
Definition empty (q : list Z) : bool := (length q =? 0)%nat.
Definition to_list (q : list Z) : list Z := q.
End RequestQueue.

(** ** Elevator *)

Inductive Direction := Up | Down | Idle.

Definition Direction_eqb (a b : Direction) : bool :=
  match a, b with
  | Up, Up | Down, Down | Idle, Idle => true
  | _, _ => false
  end.

Record Elevator := mkElevator {
  name : string;
  current : Z;
  direction : Direction;
  up : list Z;        (* UpPQ.heap *)
  down : list Z;      (* DownPQ.heap: negated floors *)
  history : list Z    (* LinkedList, head first *)
}.

(** [Elevator.__init__] *)
Definition new_elevator (nm : string) : Elevator :=
  mkElevator nm 0 Idle [] [] [].

Definition set_current (e : Elevator) (c : Z) : Elevator :=
  mkElevator (name e) c (direction e) (up e) (down e) (history e).
Definition set_direction (e : Elevator) (d : Direction) : Elevator :=
  mkElevator (name e) (current e) d (up e) (down e) (history e).
Definition set_up (e : Elevator) (h : list Z) : Elevator :=
  mkElevator (name e) (current e) (direction e) h (down e) (history e).
Definition set_down (e : Elevator) (h : list Z) : Elevator :=
  mkElevator (name e) (current e) (direction e) (up e) h (history e).
Definition set_history (e : Elevator) (h : list Z) : Elevator :=
  mkElevator (name e) (current e) (direction e) (up e) (down e) h.

Definition add_request (e : Elevator) (floor : Z) : Elevator :=
  if floor =? current e then
    set_history e (LinkedList.append (history e) floor)
  else if floor >? current e then
    set_up e (UpPQ.push (up e) floor)
  else
    set_down e (DownPQ.push (down e) floor).

Definition has_pending (e : Elevator) : bool :=
  negb (UpPQ.empty (up e)) || negb (DownPQ.empty (down e)).

Definition next_target (e : Elevator) : option Z :=
  match direction e with
  | Up =>
      if negb (UpPQ.empty (up e)) then UpPQ.peek (up e)
      else if negb (DownPQ.empty (down e)) then DownPQ.peek (down e)
      else None
  | Down =>
      if negb (DownPQ.empty (down e)) then DownPQ.peek (down e)
      else if negb (UpPQ.empty (up e)) then UpPQ.peek (up e)
      else None
  | Idle =>
      if negb (UpPQ.empty (up e)) then UpPQ.peek (up e)
      else if negb (DownPQ.empty (down e)) then DownPQ.peek (down e)
      else None
  end.

(** [self.current = target; self.history.append(target)] *)
Definition visit (e : Elevator) (target : Z) : Elevator :=
  set_history (set_current e target) (LinkedList.append (history e) target).

(** The [if self.direction == 'idle'] block of [move_to_next]: the direction
    picked from the two peeks, [None] for the early [return None]. *)
Definition idle_choice (e : Elevator) : option Direction :=
  match UpPQ.peek (up e), DownPQ.peek (down e) with
  | Some up_p, Some down_p =>
      if Z.abs (up_p - current e) <=? Z.abs (down_p - current e)
      then Some Up else Some Down
  | Some _, None => Some Up
  | None, Some _ => Some Down
  | None, None => None
  end.

(** The [if self.direction == 'up'] block. *)
Definition serve_up (e : Elevator) : Elevator * option Z :=
  if negb (UpPQ.empty (up e)) then
    match UpPQ.pop (up e) with
    | (Some target, up') =>
        let e := visit (set_up e up') target in
        let e :=
          if UpPQ.empty (up e) && negb (DownPQ.empty (down e)) then set_direction e Down
          else if UpPQ.empty (up e) then set_direction e Idle
          else e in
        (e, Some target)
    | (None, _) => (e, None)
    end
  else if negb (DownPQ.empty (down e)) then
    let e := set_direction e Down in
    match DownPQ.pop (down e) with
    | (Some target, down') =>
        let e := visit (set_down e down') target in
        let e :=
          if negb (DownPQ.empty (down e)) then set_direction e Down
          else if negb (UpPQ.empty (up e)) then set_direction e Up
          else set_direction e Idle in
        (e, Some target)
    | (None, _) => (e, None)
    end
  else (set_direction e Idle, None).

(** The [if self.direction == 'down'] block. *)
Definition serve_down (e : Elevator) : Elevator * option Z :=
  if negb (DownPQ.empty (down e)) then
    match DownPQ.pop (down e) with
    | (Some target, down') =>
        let e := visit (set_down e down') target in
        let e :=
          if DownPQ.empty (down e) && negb (UpPQ.empty (up e)) then set_direction e Up
          else if DownPQ.empty (down e) then set_direction e Idle
          else e in
        (e, Some target)
    | (None, _) => (e, None)
    end
  else if negb (UpPQ.empty (up e)) then
    let e := set_direction e Up in
    match UpPQ.pop (up e) with
    | (Some target, up') =>
        let e := visit (set_up e up') target in
        let e :=
          if negb (UpPQ.empty (up e)) then set_direction e Up
          else if negb (DownPQ.empty (down e)) then set_direction e Down
          else set_direction e Idle in
        (e, Some target)
    | (None, _) => (e, None)
    end
  else (set_direction e Idle, None).

(** The two blocks that follow the idle block; every path of the 'up' block
    returns, so the 'down' block only runs for a car that is moving down. *)
Definition serve (e : Elevator) : Elevator * option Z :=
  match direction e with
  | Up => serve_up e
  | Down => serve_down e
  | Idle => (e, None)
  end.

Definition move_to_next (e : Elevator) : Elevator * option Z :=
  match direction e with
  | Idle =>
      match idle_choice e with
      | Some d => serve (set_direction e d)
      | None => (e, None)
      end
  | _ => serve e
  end.

(** ** Dispatcher *)

(** The two cars of the [elevators] array; the dispatcher returns one of the
    two objects, so the model returns which one. *)
Inductive CarId := CarA | CarB.

(** The nested helper [suitable(elev)]. *)
Definition suitable (floor : Z) (elev : Elevator) : bool :=
  match direction elev with
  | Idle => true
  | Up => floor >=? current elev
  | Down => floor <=? current elev
  end.

Definition assign_request_to_elevator (floor : Z) (A B : Elevator) : CarId :=
  let A_s := suitable floor A in
  let B_s := suitable floor B in
  if A_s && negb B_s then CarA
  else if B_s && negb A_s then CarB
  else if Direction_eqb (direction A) Idle && negb (Direction_eqb (direction B) Idle) then CarA
  else if Direction_eqb (direction B) Idle && negb (Direction_eqb (direction A) Idle) then CarB
  else
    let distA := Z.abs (current A - floor) in
    let distB := Z.abs (current B - floor) in
    if distA <=? distB then CarA else CarB.

(** ** The simulator session: the local state of [run_interactive] *)

Record Sim := mkSim {
  elevA : Elevator;                  (* elevators[0] *)
  elevB : Elevator;                  (* elevators[1] *)
  req_q : list Z;                    (* RequestQueue.q *)
  undo_stack : list (string * Z)     (* Stack._data *)
}.

Definition initial : Sim :=
  mkSim (new_elevator "A") (new_elevator "B") [] [].

Definition get_car (s : Sim) (c : CarId) : Elevator :=
  match c with CarA => elevA s | CarB => elevB s end.

Definition set_car (s : Sim) (c : CarId) (e : Elevator) : Sim :=
  match c with
  | CarA => mkSim e (elevB s) (req_q s) (undo_stack s)
  | CarB => mkSim (elevA s) e (req_q s) (undo_stack s)
  end.

(** *** status *)

(** [sorted(l)] and [sorted(l, reverse=True)] on integers. *)
Definition sorted (l : list Z) : list Z := merge_sort Z.le l.
Definition sorted_reverse (l : list Z) : list Z := reverse (merge_sort Z.le l).

(** One "Elevator ..." line of [print_status]. *)
Record CarStatus := mkCarStatus {
  st_name : string;
  st_floor : Z;
  st_dir : Direction;
  st_up : list Z;
  st_down : list Z;
  st_history : list Z
}.

Definition car_status (e : Elevator) : CarStatus :=
  let up_list := sorted (UpPQ.to_list (up e)) in
  let down_list := sorted_reverse (DownPQ.to_list (down e)) in
  let hist := LinkedList.to_list (history e) in
  mkCarStatus (name e) (current e) (direction e) up_list down_list hist.

(** What [print_status] prints: a line per car, the incoming queue and the
    undo stack. *)
Definition print_status (s : Sim) : list CarStatus * list Z * list (string * Z) :=
  ([car_status (elevA s); car_status (elevB s)],
   RequestQueue.to_list (req_q s), undo_stack s).

(** *** request <floor> *)

Inductive RequestOutcome :=
| RangeError                       (* "floor must be between ..." *)
| Assigned (floor : Z) (car : string)
| NothingAssigned.                 (* [next_req is None] *)

Definition submit_request (s : Sim) (floor : Z) : Sim * RequestOutcome :=
  if (floor <? MIN_FLOOR) || (floor >? MAX_FLOOR) then (s, RangeError)
  else
    let q := RequestQueue.push (req_q s) floor in
    let st := Stack.push (undo_stack s) ("request"%string, floor) in
    match RequestQueue.pop q with
    | (Some next_req, q') =>
        let assigned := assign_request_to_elevator next_req (elevA s) (elevB s) in
        let s' := mkSim (elevA s) (elevB s) q' st in
        let e' := add_request (get_car s' assigned) next_req in
        (set_car s' assigned e', Assigned next_req (name e'))
    | (None, q') => (mkSim (elevA s) (elevB s) q' st, NothingAssigned)
    end.

(** *** undo *)

Inductive UndoOutcome :=
| NothingToUndo
| Removed (value : Z)              (* "Undo: removed request ..." *)
| NotFound (value : Z)             (* "... already being served or not found." *)
| UnknownType.

(** [try: heap.remove(v); heapq.heapify(heap); removed = True
     except ValueError: pass] *)
Definition remove_heapify (v : Z) (heap : list Z) (removed : bool) : list Z * bool :=
  match heapq.list_remove v heap with
  | Some heap' => (heapq.heapify heap', true)
  | None => (heap, removed)
  end.

(** One iteration of [for e in elevators] in the undo branch. *)
Definition undo_in_elevator (value : Z) (e : Elevator) (removed : bool) : Elevator * bool :=
  let '(u, removed) := remove_heapify value (up e) removed in
  let e := set_up e u in
  let '(d, removed) := remove_heapify (- value) (down e) removed in
  (set_down e d, removed).

Definition undo_last (s : Sim) : Sim * UndoOutcome :=
  match Stack.pop (undo_stack s) with
  | (None, st) => (mkSim (elevA s) (elevB s) (req_q s) st, NothingToUndo)
  | (Some (typ, value), st) =>
      if String.eqb typ "request" then
        let removed := false in
        let '(q, removed) :=
          match heapq.list_remove value (req_q s) with
          | Some q' => (q', true)
          | None => (req_q s, removed)
          end in
        let '(a, removed) := undo_in_elevator value (elevA s) removed in
        let '(b, removed) := undo_in_elevator value (elevB s) removed in
        (mkSim a b q st, if removed then Removed value else NotFound value)
      else (mkSim (elevA s) (elevB s) (req_q s) st, UnknownType)
  end.

(** *** step *)

Definition served_by (e : Elevator) (r : option Z) : list (string * Z) :=
  match r with
  | Some f => [(name e, f)]
  | None => []
  end.

Definition step (s : Sim) : Sim * list (string * Z) :=
  let '(a, ra) := move_to_next (elevA s) in
  let '(b, rb) := move_to_next (elevB s) in
  (mkSim a b (req_q s) (undo_stack s), served_by a ra ++ served_by b rb).

(** *** auto *)

Definition SAFETY_CAP : Z := 1000.

(** [any(e.has_pending() for e in elevators)] *)
Definition pending (s : Sim) : bool :=
  has_pending (elevA s) || has_pending (elevB s).

Record AutoResult := mkAuto {
  auto_state : Sim;
  auto_steps : Z;               (* the counter [steps] when the loop is left *)
  auto_safety_stop : bool       (* "Stopping auto (safety)." was printed *)
}.

(** The [while True] loop of the auto branch; [None] when the iteration
    budget of the model runs out before the loop is left. *)
Fixpoint auto_loop (fuel : nat) (steps : Z) (s : Sim) : option AutoResult :=
  match fuel with
  | O => None
  | S fuel' =>
      if negb (pending s) then Some (mkAuto s steps false)
      else
        let s := fst (step s) in
        let steps := steps + 1 in
        if steps >? SAFETY_CAP then Some (mkAuto s steps true)
        else auto_loop fuel' steps s
  end.

(** *** The command loop, restricted to the commands that touch the state *)

Inductive Command :=
| CmdRequest (floor : Z)
| CmdUndo
| CmdStep
| CmdAuto.

(** Iteration budget handed to [auto_loop]: more than the loop can use, see
    [run_auto_iter]. *)
Definition auto_fuel : nat := 1002.

Definition run_auto (s : Sim) : option AutoResult := auto_loop auto_fuel 0 s.

Definition exec (s : Sim) (c : Command) : option Sim :=
  match c with
  | CmdRequest f => Some (fst (submit_request s f))
  | CmdUndo => Some (fst (undo_last s))
  | CmdStep => Some (fst (step s))
  | CmdAuto => option_map auto_state (run_auto s)
  end.

Fixpoint run (s : Sim) (cmds : list Command) : option Sim :=
  match cmds with
  | [] => Some s
  | c :: cmds' =>
      match exec s c with
      | Some s' => run s' cmds'
      | None => None
      end
  end.

(** * Vocabulary of the statements

    Notions used to state the properties below: observations on sessions
    and cars, the sample sessions used as examples, and the shape of a heap. *)

(** [len(heap) == 0] on the list itself. *)
Definition is_nil (l : list Z) : bool :=
  match l with [] => true | _ => false end.

(** Direction left behind after the primary queue was popped. *)
Definition after_pop (primary_left other : list Z) (d d_other : Direction) : Direction :=
  if is_nil primary_left then (if is_nil other then Idle else d_other) else d.

(** Both queues of the car are empty. *)
Definition queues_empty (e : Elevator) : Prop :=
  UpPQ.empty (up e) = true /\ DownPQ.empty (down e) = true.

(** A car at floor 3 moving up, with 5 and 8 ahead and floor 2 below. *)
Definition car_at_3 : Elevator := mkElevator "A" 3 Up [5; 8] [2] [3].

(** [move_to_next] pops its target from the Up-queue: the served floor is the
    queue's peek, the Down-queue is left alone. *)
Definition serves_from_up (e : Elevator) : Prop :=
  exists t h, heapq.heappop (up e) = Some (t, h) /\ UpPQ.peek (up e) = Some t /\
    snd (move_to_next e) = Some t /\
    up (fst (move_to_next e)) = h /\ down (fst (move_to_next e)) = down e /\
    current (fst (move_to_next e)) = t.

(** The same for the Down-queue, whose heap holds the negated floors. *)
Definition serves_from_down (e : Elevator) : Prop :=
  exists t h, heapq.heappop (down e) = Some (- t, h) /\ DownPQ.peek (down e) = Some t /\
    snd (move_to_next e) = Some t /\
    down (fst (move_to_next e)) = h /\ up (fst (move_to_next e)) = up e /\
    current (fst (move_to_next e)) = t.

(** An idle car at floor 0 with floor 5 above and floor -3 below. *)
Definition idle_car_between : Elevator := mkElevator "A" 0 Idle [5] [3] [].

(** Suitability as the dispatcher's documentation words it. *)
Definition Suitable (floor : Z) (e : Elevator) : Prop :=
  direction e = Idle
  \/ (direction e = Up /\ floor >= current e)
  \/ (direction e = Down /\ floor <= current e).

(** One iteration of the loop body on the state. *)
Definition step_state (s : Sim) : Sim := fst (step s).

(** A reachable session with 1001 pending requests in car A: the floor 5
    requested 1001 times from the initial state. *)
Definition busy_state : Sim :=
  Nat.iter 1001 (fun s => fst (submit_request s 5)) initial.

(** Occurrences of a floor in a container. *)
Definition count (v : Z) (l : list Z) : nat := count_occ Z.eq_dec l v.

(** The five containers a pending request can sit in, as lists of floors:
    the incoming FIFO and the Up- and Down-queue of each car. *)
Definition containers (s : Sim) : list (list Z) :=
  [ RequestQueue.to_list (req_q s);
    UpPQ.to_list (up (elevA s)); DownPQ.to_list (down (elevA s));
    UpPQ.to_list (up (elevB s)); DownPQ.to_list (down (elevB s)) ].

(** Pending entries for floor [F] in the whole session. *)
Definition pending_entries (F : Z) (s : Sim) : nat :=
  sum_list (map (count F) (containers s)).

(** Some container holds floor [F]. *)
Definition held (F : Z) (s : Sim) : bool :=
  existsb (fun c => bool_decide (F ∈ c)) (containers s).

(** A container after the loss of one occurrence of [F], if it had one. *)
Definition lost_one (F : Z) (before after : list Z) : Prop :=
  forall G, count G after = if decide (G = F) then pred (count G before)
                            else count G before.

(** [list.remove] made total: the list is returned as it is when the value
    is absent. *)
Definition remove_one (v : Z) (l : list Z) : list Z :=
  match heapq.list_remove v l with
  | Some l' => l'
  | None => l
  end.

(** The session reached from the initial state by: request -3, request 5,
    step, request 5.  Car A went down to -3 and now sweeps up towards 5; the
    second request for 5 went to the idle car B. *)
Definition two_pending_fives : Sim :=
  mkSim (mkElevator "A" (-3) Up [5] [] [-3])
        (mkElevator "B" 0 Idle [5] [] [])
        []
        [("request"%string, -3); ("request"%string, 5); ("request"%string, 5)].

(** Sessions reached from the initial one by some sequence of commands. *)
Definition reachable (s : Sim) : Prop :=
  exists cmds, run initial cmds = Some s.

(** The bounds check of the request branch, as a property of a floor. *)
Definition in_range (f : Z) : Prop := MIN_FLOOR <= f <= MAX_FLOOR.

(** Every floor a car knows of is in range. *)
Definition car_in_range (e : Elevator) : Prop :=
  in_range (current e)
  /\ Forall in_range (UpPQ.to_list (up e))
  /\ Forall in_range (DownPQ.to_list (down e))
  /\ Forall in_range (LinkedList.to_list (history e)).

(** Every floor of the session is in range. *)
Definition sim_in_range (s : Sim) : Prop :=
  car_in_range (elevA s) /\ car_in_range (elevB s)
  /\ Forall in_range (RequestQueue.to_list (req_q s)).

(** Two cars that agree on everything the session shows; the heaps hold the
    same entries, possibly laid out differently in the list. *)
Definition same_car (e e' : Elevator) : Prop :=
  name e' = name e /\ current e' = current e /\ direction e' = direction e
  /\ history e' = history e /\ up e' ≡ₚ up e /\ down e' ≡ₚ down e.

(** Two sessions that agree up to the layout of the heaps. *)
Definition same_session (s s' : Sim) : Prop :=
  same_car (elevA s) (elevA s') /\ same_car (elevB s) (elevB s')
  /\ req_q s' = req_q s /\ undo_stack s' = undo_stack s.

(** The car that was not picked. *)
Definition other_car (c : CarId) : CarId :=
  match c with CarA => CarB | CarB => CarA end.

(** [F] already waits in a queue of the car that was not picked. *)
Definition pending_in_other_car (F : Z) (s : Sim) (c : CarId) : Prop :=
  F ∈ UpPQ.to_list (up (get_car s (other_car c)))
  \/ F ∈ DownPQ.to_list (down (get_car s (other_car c))).

(** Both queues of the car satisfy the heap invariant. *)
Definition car_heaps (e : Elevator) : Prop :=
  heapq.is_heap (up e) /\ heapq.is_heap (down e).

(** All four queues of the session satisfy the heap invariant. *)
Definition heaps_valid (s : Sim) : Prop :=
  car_heaps (elevA s) /\ car_heaps (elevB s).

(** The pending floors of a car lie on the side of the car their queue is
    for: Up-floors at or above its floor, Down-floors at or below it. *)
Definition car_ordered (e : Elevator) : Prop :=
  car_heaps e
  /\ Forall (fun y => current e <= y) (UpPQ.to_list (up e))
  /\ Forall (fun y => y <= current e) (DownPQ.to_list (down e)).

Definition session_ordered (s : Sim) : Prop :=
  car_ordered (elevA s) /\ car_ordered (elevB s).

(** What can happen to one car between two states of a sweep. *)
Inductive CarOp :=
| OpAddRequest (floor : Z)
| OpMoveToNext.

(** The car is moving up and its next target comes from the Up-queue. *)
Definition sweeping_up (e : Elevator) : bool :=
  Direction_eqb (direction e) Up && negb (UpPQ.empty (up e)).

(** The car is moving down and its next target comes from the Down-queue. *)
Definition sweeping_down (e : Elevator) : bool :=
  Direction_eqb (direction e) Down && negb (DownPQ.empty (down e)).

(** The floors served by the [move_to_next] calls among [ops], provided the
    car satisfies [guard] at every one of them; [None] when the run leaves
    the sweep. *)
Fixpoint sweep (guard : Elevator -> bool) (e : Elevator) (ops : list CarOp)
    : option (list Z) :=
  match ops with
  | [] => Some []
  | OpAddRequest F :: ops' => sweep guard (add_request e F) ops'
  | OpMoveToNext :: ops' =>
      if guard e then
        match move_to_next e with
        | (e', Some t) => option_map (cons t) (sweep guard e' ops')
        | (_, None) => None
        end
      else None
  end.

(** All pending Up-floors are at or above [lo], and so is the car. *)
Definition up_bounded (lo : Z) (e : Elevator) : Prop :=
  heapq.is_heap (up e) /\ Forall (fun y => lo <= y) (UpPQ.to_list (up e))
  /\ lo <= current e.

(** All pending Down-floors are at or below [hi], and so is the car. *)
Definition down_bounded (hi : Z) (e : Elevator) : Prop :=
  heapq.is_heap (down e) /\ Forall (fun y => y <= hi) (DownPQ.to_list (down e))
  /\ current e <= hi.

(** [n] calls of a container's [pop], with what each call returned. *)
Fixpoint pop_n {A} (pop : list A -> option A * list A) (n : nat) (d : list A)
    : list (option A) * list A :=
  match n with
  | O => ([], d)
  | S n' =>
      let '(x, d1) := pop d in
      let '(xs, d2) := pop_n pop n' d1 in
      (x :: xs, d2)
  end.

(** The floors handed out by popping a queue until it is empty; the queue
    holds [n] entries. *)
Fixpoint drain (pop : list Z -> option Z * list Z) (n : nat) (heap : list Z)
    : list Z :=
  match n with
  | O => []
  | S n' =>
      match pop heap with
      | (Some x, heap') => x :: drain pop n' heap'
      | (None, _) => []
      end
  end.

(** Number of pending targets of a car. *)
Definition pending_count (e : Elevator) : nat :=
  (length (up e) + length (down e))%nat.

(** Everything a car has seen: the floors it visited followed by the floors
    it still has to visit. *)
Definition car_load (e : Elevator) : list Z :=
  LinkedList.to_list (history e) ++ UpPQ.to_list (up e) ++ DownPQ.to_list (down e).

(** The floor a car stands on is the last one logged, floor 0 before any. *)
Definition at_last_visited (e : Elevator) : Prop :=
  current e = default 0 (last (LinkedList.to_list (history e))).

(** What a car has served since it was [e0]: its history is that of [e0]
    followed by floors that, with what is still pending, make up what was
    pending in [e0]. *)
Definition served_since (e0 e : Elevator) : Prop :=
  name e = name e0
  /\ exists served,
       history e = history e0 ++ served
       /\ served ++ UpPQ.to_list (up e) ++ DownPQ.to_list (down e)
          ≡ₚ UpPQ.to_list (up e0) ++ DownPQ.to_list (down e0).

Definition session_served_since (s0 s : Sim) : Prop :=
  served_since (elevA s0) (elevA s) /\ served_since (elevB s0) (elevB s)
  /\ req_q s = req_q s0 /\ undo_stack s = undo_stack s0.

(** The largest number of pending targets of a car. *)
Definition max_pending (s : Sim) : nat :=
  Nat.max (pending_count (elevA s)) (pending_count (elevB s)).

(** A car keeps its name and stands where its history ends. *)
Definition car_tracks (nm : string) (e : Elevator) : Prop :=
  name e = nm /\ at_last_visited e.

Definition session_tracks (s : Sim) : Prop :=
  car_tracks "A" (elevA s) /\ car_tracks "B" (elevB s).

(** Everything the two cars have seen. *)
Definition session_load (s : Sim) : list Z :=
  car_load (elevA s) ++ car_load (elevB s).

(** The floors of the requests among [cmds] that pass the bounds check. *)
Fixpoint accepted (cmds : list Command) : list Z :=
  match cmds with
  | [] => []
  | CmdRequest f :: cmds' =>
      if (f <? MIN_FLOOR) || (f >? MAX_FLOOR) then accepted cmds'
      else f :: accepted cmds'
  | _ :: cmds' => accepted cmds'
  end.

Section heap_shape.
Local Open Scope nat_scope.

(** The smaller child picked by one round of [_siftup]. *)
Definition child_of (heap : list Z) (pos : nat) : nat :=
  let childpos := 2 * pos + 1 in
  let rightpos := childpos + 1 in
  if (rightpos <? length heap) && negb (heap !!! childpos <? heap !!! rightpos)%Z
  then rightpos else childpos.

(** [below s p]: index [p] lies in the subtree rooted at index [s]. *)
Inductive below (s : nat) : nat -> Prop :=
| below_root : below s s
| below_left p : below s p -> below s (2 * p + 1)
| below_right p : below s p -> below s (2 * p + 2).

(** The heap order on every edge whose parent index is at least [s];
    [heap_from 0] is [is_heap]. *)
Definition heap_from (s : nat) (heap : list Z) : Prop :=
  forall j, 0 < j < length heap -> s <= (j - 1) / 2 ->
    (heap !!! ((j - 1) / 2)%nat <= heap !!! j)%Z.

(** State of the [_siftdown] loop: the item being placed is held aside and
    position [pos] is a hole. *)
Record down_inv (s : nat) (A : list Z) (pos : nat) (newitem : Z) : Prop := {
  down_pos : pos < length A;
  down_below : below s pos;
  down_edges : forall j, 0 < j < length A -> s <= (j - 1) / 2 -> j <> pos ->
      (A !!! ((j - 1) / 2)%nat <= A !!! j)%Z;
  down_children : forall j, 0 < j < length A -> (j - 1) / 2 = pos ->
      (newitem <= A !!! j)%Z;
  down_grand : s < pos -> forall j, 0 < j < length A -> (j - 1) / 2 = pos ->
      (A !!! ((pos - 1) / 2)%nat <= A !!! j)%Z
}.

(** State of the first loop of [_siftup]: position [pos] is a hole that
    travels down to a leaf. *)
Record up_inv (s : nat) (A : list Z) (pos : nat) : Prop := {
  up_pos : pos < length A;
  up_below : below s pos;
  up_edges : forall j, 0 < j < length A -> s <= (j - 1) / 2 ->
      j <> pos -> (j - 1) / 2 <> pos ->
      (A !!! ((j - 1) / 2)%nat <= A !!! j)%Z;
  up_grand : s < pos -> forall j, 0 < j < length A -> (j - 1) / 2 = pos ->
      (A !!! ((pos - 1) / 2)%nat <= A !!! j)%Z
}.

End heap_shape.

(** * Properties *)

(** ** Basic facts about the containers *)

Lemma last_cons_Some {A} (x : A) (l : list A) : exists y, last (x :: l) = Some y.
Proof.
  revert x. induction l as [|z l IH]; intros x; simpl; eauto.
Qed.

Lemma heappop_cons (x : Z) (l : list Z) :
  exists r h, heapq.heappop (x :: l) = Some (r, h).
Proof.
  unfold heapq.heappop.
  destruct (last_cons_Some x l) as [y ->].
  destruct (removelast (x :: l)); eauto.
Qed.




(** ** What one call of [move_to_next] does, case by case *)

Ltac car_simpl :=
  cbn [name current direction up down history
       set_current set_direction set_up set_down set_history visit
       LinkedList.append UpPQ.empty DownPQ.empty is_nil after_pop
       length Nat.eqb negb andb orb fst snd] in *.

Lemma serve_up_pops_up (e : Elevator) (t : Z) (h : list Z) :
  up e <> [] ->
  heapq.heappop (up e) = Some (t, h) ->
  serve_up e =
    (mkElevator (name e) t (after_pop h (down e) (direction e) Down) h (down e)
                (history e ++ [t]),
     Some t).
Proof.
  destruct e as [n c d u dn hi]. car_simpl. intros Hne Hpop.
  unfold serve_up, UpPQ.pop. car_simpl.
  destruct u as [|u0 us]; [done|]. rewrite Hpop. car_simpl.
  destruct h, dn; reflexivity.
Qed.

Lemma serve_up_pops_down (e : Elevator) (t : Z) (h : list Z) :
  up e = [] -> down e <> [] ->
  heapq.heappop (down e) = Some (t, h) ->
  serve_up e =
    (mkElevator (name e) (- t) (after_pop h [] Down Up) [] h
                (history e ++ [- t]),
     Some (- t)).
Proof.
  destruct e as [n c d u dn hi]. car_simpl. intros -> Hne Hpop.
  unfold serve_up, DownPQ.pop. car_simpl.
  destruct dn as [|d0 ds]; [done|]. car_simpl. rewrite Hpop. car_simpl.
  destruct h; reflexivity.
Qed.

Lemma serve_up_nothing (e : Elevator) :
  up e = [] -> down e = [] -> serve_up e = (set_direction e Idle, None).
Proof. intros Hu Hd. unfold serve_up. rewrite Hu, Hd. reflexivity. Qed.

Lemma serve_down_pops_down (e : Elevator) (t : Z) (h : list Z) :
  down e <> [] ->
  heapq.heappop (down e) = Some (t, h) ->
  serve_down e =
    (mkElevator (name e) (- t) (after_pop h (up e) (direction e) Up) (up e) h
                (history e ++ [- t]),
     Some (- t)).
Proof.
  destruct e as [n c d u dn hi]. car_simpl. intros Hne Hpop.
  unfold serve_down, DownPQ.pop. car_simpl.
  destruct dn as [|d0 ds]; [done|]. rewrite Hpop. car_simpl.
  destruct h, u; reflexivity.
Qed.

Lemma serve_down_pops_up (e : Elevator) (t : Z) (h : list Z) :
  down e = [] -> up e <> [] ->
  heapq.heappop (up e) = Some (t, h) ->
  serve_down e =
    (mkElevator (name e) t (after_pop h [] Up Down) h []
                (history e ++ [t]),
     Some t).
Proof.
  destruct e as [n c d u dn hi]. car_simpl. intros -> Hne Hpop.
  unfold serve_down, UpPQ.pop. car_simpl.
  destruct u as [|u0 us]; [done|]. car_simpl. rewrite Hpop. car_simpl.
  destruct h; reflexivity.
Qed.

Lemma serve_down_nothing (e : Elevator) :
  up e = [] -> down e = [] -> serve_down e = (set_direction e Idle, None).
Proof. intros Hu Hd. unfold serve_down. rewrite Hu, Hd. reflexivity. Qed.

Lemma heappop_nonempty (l : list Z) :
  l <> [] -> exists t h, heapq.heappop l = Some (t, h).
Proof. destruct l; [done|]. intros _. apply heappop_cons. Qed.

(** ** Idle exactly when nothing is pending, after a step *)

Lemma queues_empty_mk n c d u dn hi :
  queues_empty (mkElevator n c d u dn hi) <-> u = [] /\ dn = [].
Proof.
  unfold queues_empty, UpPQ.empty, DownPQ.empty; cbn.
  destruct u, dn; cbn; intuition congruence.
Qed.

Lemma serve_up_idle_iff (e : Elevator) :
  direction e = Up ->
  direction (fst (serve_up e)) = Idle <-> queues_empty (fst (serve_up e)).
Proof.
  intros Hd.
  destruct (up e) as [|u us] eqn:Hu.
  - destruct (down e) as [|d ds] eqn:Hdn.
    + rewrite serve_up_nothing by done. destruct e; cbn in *; subst.
      unfold set_direction. cbn. rewrite queues_empty_mk. tauto.
    + destruct (heappop_nonempty (down e)) as (t & h & Hp); [by rewrite Hdn|].
      rewrite (serve_up_pops_down e t h) by (done || by rewrite Hdn).
      cbn [fst direction]. rewrite queues_empty_mk. unfold after_pop.
      destruct h; cbn; intuition congruence.
  - destruct (heappop_nonempty (up e)) as (t & h & Hp); [by rewrite Hu|].
    rewrite (serve_up_pops_up e t h) by (done || by rewrite Hu).
    cbn [fst direction]. rewrite queues_empty_mk, Hd. unfold after_pop.
    destruct h, (down e); cbn; intuition congruence.
Qed.

Lemma serve_down_idle_iff (e : Elevator) :
  direction e = Down ->
  direction (fst (serve_down e)) = Idle <-> queues_empty (fst (serve_down e)).
Proof.
  intros Hd.
  destruct (down e) as [|d ds] eqn:Hdn.
  - destruct (up e) as [|u us] eqn:Hu.
    + rewrite serve_down_nothing by done. destruct e; cbn in *; subst.
      unfold set_direction. cbn. rewrite queues_empty_mk. tauto.
    + destruct (heappop_nonempty (up e)) as (t & h & Hp); [by rewrite Hu|].
      rewrite (serve_down_pops_up e t h) by (done || by rewrite Hu).
      cbn [fst direction]. rewrite queues_empty_mk. unfold after_pop.
      destruct h; cbn; intuition congruence.
  - destruct (heappop_nonempty (down e)) as (t & h & Hp); [by rewrite Hdn|].
    rewrite (serve_down_pops_down e t h) by (done || by rewrite Hdn).
    cbn [fst direction]. rewrite queues_empty_mk, Hd. unfold after_pop.
    destruct h, (up e); cbn; intuition congruence.
Qed.

Lemma move_to_next_idle_iff (e : Elevator) :
  direction (fst (move_to_next e)) = Idle <-> queues_empty (fst (move_to_next e)).
Proof.
  unfold move_to_next.
  destruct (direction e) eqn:Hd.
  - unfold serve. rewrite Hd. by apply serve_up_idle_iff.
  - unfold serve. rewrite Hd. by apply serve_down_idle_iff.
  - unfold idle_choice, UpPQ.peek, DownPQ.peek.
    destruct (up e) as [|u us] eqn:Hu; destruct (down e) as [|d ds] eqn:Hdn.
    + cbn [fst]. destruct e; cbn in *; subst. rewrite queues_empty_mk. tauto.
    + unfold serve. cbn [direction set_direction]. by apply serve_down_idle_iff.
    + unfold serve. cbn [direction set_direction]. by apply serve_up_idle_iff.
    + destruct (Z.abs (u - current e) <=? Z.abs (- d - current e));
        unfold serve; cbn [direction set_direction].
      * by apply serve_up_idle_iff.
      * by apply serve_down_idle_iff.
Qed.

(** C4. Immediately after [step], in whatever state the simulator was (so in
    particular after any sequence of steps and in-range requests from the
    initial state), each car is Idle if and only if both of its queues are
    empty. *)
Theorem step_idle_iff_queues_empty (s : Sim) (c : CarId) :
  let e := get_car (fst (step s)) c in
  direction e = Idle <-> (UpPQ.empty (up e) = true /\ DownPQ.empty (down e) = true).
Proof.
  unfold step.
  pose proof (move_to_next_idle_iff (elevA s)) as HA.
  pose proof (move_to_next_idle_iff (elevB s)) as HB.
  destruct (move_to_next (elevA s)) as [a ra].
  destruct (move_to_next (elevB s)) as [b rb].
  destruct c; cbn in *; assumption.
Qed.

(** ** heapq keeps the contents of the list *)

Section heapq_contents.
Local Open Scope nat_scope.

Lemma insert_swap_perm (l : list Z) (i j : nat) (x : Z) :
  i < length l -> j < length l -> i <> j ->
  <[j := x]> (<[i := l !!! j]> l) ≡ₚ <[i := x]> l.
Proof.
  intros Hi Hj Hne.
  rewrite <- (list_insert_insert_eq l i (l !!! j) x).
  apply Permutation_insert_swap.
  - apply list_lookup_insert_eq. lia.
  - rewrite list_lookup_insert_ne by done.
    by apply list_lookup_lookup_total_lt.
Qed.

Lemma insert_lookup_total_id (l : list Z) (i : nat) :
  <[i := l !!! i]> l = l.
Proof.
  apply list_insert_id'. intros Hi. by apply list_lookup_lookup_total_lt.
Qed.

Lemma _siftdown_loop_length fuel heap startpos pos newitem :
  length (heapq._siftdown_loop fuel heap startpos pos newitem) = length heap.
Proof.
  revert heap pos.
  induction fuel as [|fuel IH]; intros heap pos; cbn [heapq._siftdown_loop].
  - by rewrite length_insert.
  - destruct (startpos <? pos); [|by rewrite length_insert].
    destruct (newitem <? _)%Z; [|by rewrite length_insert].
    by rewrite IH, length_insert.
Qed.

Lemma _siftdown_loop_perm fuel heap startpos pos newitem :
  pos < length heap ->
  heapq._siftdown_loop fuel heap startpos pos newitem ≡ₚ <[pos := newitem]> heap.
Proof.
  revert heap pos.
  induction fuel as [|fuel IH]; intros heap pos Hpos; cbn [heapq._siftdown_loop].
  - done.
  - destruct (startpos <? pos) eqn:Hlt; [|done].
    apply Nat.ltb_lt in Hlt.
    destruct (newitem <? _)%Z; [|done].
    rewrite IH by (rewrite length_insert; lia).
    apply insert_swap_perm; lia.
Qed.

Lemma _siftdown_length heap startpos pos :
  length (heapq._siftdown heap startpos pos) = length heap.
Proof. apply _siftdown_loop_length. Qed.

Lemma _siftdown_perm heap startpos pos :
  pos < length heap -> heapq._siftdown heap startpos pos ≡ₚ heap.
Proof.
  intros Hpos. unfold heapq._siftdown.
  rewrite _siftdown_loop_perm by done. by rewrite insert_lookup_total_id.
Qed.

Lemma child_of_cases heap pos :
  2 * pos + 1 < length heap ->
  let c := child_of heap pos in
  (c = 2 * pos + 1 \/ c = 2 * pos + 2) /\ c < length heap /\
  (heap !!! c <= heap !!! (2 * pos + 1)%nat)%Z /\
  (2 * pos + 2 < length heap -> (heap !!! c <= heap !!! (2 * pos + 2)%nat)%Z).
Proof.
  intros Hc. unfold child_of. cbn zeta.
  replace (2 * pos + 1 + 1) with (2 * pos + 2) by lia.
  destruct (2 * pos + 2 <? length heap) eqn:Hr; cbn [andb].
  - apply Nat.ltb_lt in Hr.
    destruct (heap !!! (2 * pos + 1)%nat <? heap !!! (2 * pos + 2)%nat)%Z eqn:Hlt; cbn [negb].
    + apply Z.ltb_lt in Hlt. repeat split; try lia; auto.
    + apply Z.ltb_ge in Hlt. repeat split; try lia; auto.
  - apply Nat.ltb_ge in Hr. repeat split; try lia; auto.
Qed.

Lemma _siftup_loop_unfold fuel heap pos :
  heapq._siftup_loop (S fuel) heap pos =
    if 2 * pos + 1 <? length heap
    then heapq._siftup_loop fuel (<[pos := heap !!! child_of heap pos]> heap)
                            (child_of heap pos)
    else (heap, pos).
Proof. reflexivity. Qed.

Lemma _siftup_loop_spec fuel heap pos :
  pos < length heap ->
  let r := heapq._siftup_loop fuel heap pos in
  length r.1 = length heap /\ pos <= r.2 < length heap /\
  forall x, <[r.2 := x]> r.1 ≡ₚ <[pos := x]> heap.
Proof.
  revert heap pos. induction fuel as [|fuel IH]; intros heap pos Hpos.
  - cbn. split; [done|]. split; [lia|done].
  - cbv zeta. rewrite _siftup_loop_unfold.
    destruct (2 * pos + 1 <? length heap) eqn:Hc.
    + apply Nat.ltb_lt in Hc.
      destruct (child_of_cases heap pos Hc) as (Hcc & Hlt & _).
      set (c := child_of heap pos) in *.
      destruct (IH (<[pos := heap !!! c]> heap) c) as (Hlen & Hrng & Hperm).
      { rewrite length_insert. lia. }
      rewrite length_insert in Hlen, Hrng.
      split; [done|]. split; [lia|].
      intros x. rewrite Hperm. apply insert_swap_perm; lia.
    + cbn. split; [done|]. split; [lia|done].
Qed.

Lemma _siftup_length heap pos :
  pos < length heap -> length (heapq._siftup heap pos) = length heap.
Proof.
  intros Hpos. unfold heapq._siftup.
  destruct (_siftup_loop_spec (length heap) heap pos Hpos) as (Hlen & _ & _).
  destruct (heapq._siftup_loop (length heap) heap pos) as [h p]. cbn in *.
  by rewrite _siftdown_length, length_insert.
Qed.

Lemma _siftup_perm heap pos :
  pos < length heap -> heapq._siftup heap pos ≡ₚ heap.
Proof.
  intros Hpos. unfold heapq._siftup.
  destruct (_siftup_loop_spec (length heap) heap pos Hpos) as (Hlen & Hrng & Hperm).
  destruct (heapq._siftup_loop (length heap) heap pos) as [h p]. cbn in *.
  rewrite _siftdown_perm by (rewrite length_insert; lia).
  rewrite Hperm. by rewrite insert_lookup_total_id.
Qed.

Lemma heappush_perm heap item : heapq.heappush heap item ≡ₚ item :: heap.
Proof.
  unfold heapq.heappush.
  rewrite _siftdown_perm by (rewrite length_app; cbn; lia).
  by rewrite Permutation_app_comm.
Qed.

Lemma heappush_length heap item :
  length (heapq.heappush heap item) = S (length heap).
Proof.
  unfold heapq.heappush. rewrite _siftdown_length, length_app. cbn. lia.
Qed.

Lemma heappop_perm heap t h :
  heapq.heappop heap = Some (t, h) -> heap ≡ₚ t :: h.
Proof.
  unfold heapq.heappop. destruct (last heap) as [lastelt|] eqn:Hlast; [|done].
  apply last_Some in Hlast as [l' ->]. rewrite removelast_last.
  destruct l' as [|r rest]; intros [= <- <-].
  - done.
  - cbn [app]. rewrite _siftup_perm by (cbn; lia).
    cbn. apply perm_skip. by rewrite Permutation_app_comm.
Qed.

(** [heappop] hands out the item stored at index 0, whatever the list. *)
Lemma heappop_head heap t h :
  heapq.heappop heap = Some (t, h) -> head heap = Some t.
Proof.
  unfold heapq.heappop. destruct (last heap) as [lastelt|] eqn:Hlast; [|done].
  apply last_Some in Hlast as [l' ->]. rewrite removelast_last.
  destruct l' as [|r rest]; by intros [= <- <-].
Qed.

Lemma heapify_loop_length i x :
  i <= length x -> length (heapq.heapify_loop i x) = length x.
Proof.
  revert x. induction i as [|i IH]; intros x Hi; cbn; [done|].
  rewrite IH; rewrite _siftup_length; lia.
Qed.

Lemma heapify_loop_perm i x :
  i <= length x -> heapq.heapify_loop i x ≡ₚ x.
Proof.
  revert x. induction i as [|i IH]; intros x Hi; cbn; [done|].
  rewrite IH by (rewrite _siftup_length; lia).
  apply _siftup_perm. lia.
Qed.

Lemma heapify_perm x : heapq.heapify x ≡ₚ x.
Proof. apply heapify_loop_perm. lia. Qed.

Lemma list_remove_perm v l l' :
  heapq.list_remove v l = Some l' -> l ≡ₚ v :: l'.
Proof.
  revert l'. induction l as [|x l IH]; intros l'; cbn; [done|].
  destruct (x =? v)%Z eqn:Hx.
  - apply Z.eqb_eq in Hx as ->. by intros [= ->].
  - destruct (heapq.list_remove v l) as [r|]; [|done].
    intros [= <-]. rewrite (IH r eq_refl). apply perm_swap.
Qed.

Lemma list_remove_None v l :
  heapq.list_remove v l = None <-> v ∉ l.
Proof.
  induction l as [|x l IH]; cbn.
  - split; [intros _; apply not_elem_of_nil | done].
  - rewrite not_elem_of_cons. destruct (x =? v)%Z eqn:Hx.
    + apply Z.eqb_eq in Hx. split; [done | intros [? _]; congruence].
    + apply Z.eqb_neq in Hx.
      destruct (heapq.list_remove v l) as [r|].
      * split; [done|]. intros [_ Hn]. by apply IH in Hn.
      * split; [|done]. intros _. split; [congruence | by apply IH].
Qed.

End heapq_contents.

(** ** add_request *)

Lemma add_request_name (e : Elevator) (F : Z) : name (add_request e F) = name e.
Proof.
  unfold add_request.
  destruct (F =? current e); [done|]. by destruct (F >? current e).
Qed.

(** C6. A request for the floor the car stands on goes to the history and
    leaves both queues as they were; any other floor is pushed on the Up-queue
    when it lies above the car and on the Down-queue when it lies below, and
    nothing else of the car changes. *)
Theorem add_request_effect (e : Elevator) (F : Z) :
  let e' := add_request e F in
  (name e' = name e /\ current e' = current e /\ direction e' = direction e) /\
  (F = current e ->
     history e' = history e ++ [F] /\ up e' = up e /\ down e' = down e) /\
  (F > current e ->
     up e' = heapq.heappush (up e) F /\
     UpPQ.to_list (up e') ≡ₚ F :: UpPQ.to_list (up e) /\
     down e' = down e /\ history e' = history e) /\
  (F < current e ->
     down e' = heapq.heappush (down e) (- F) /\
     DownPQ.to_list (down e') ≡ₚ F :: DownPQ.to_list (down e) /\
     up e' = up e /\ history e' = history e).
Proof.
  unfold add_request.
  destruct (F =? current e) eqn:Heq; [apply Z.eqb_eq in Heq | apply Z.eqb_neq in Heq].
  - cbn. repeat split; try lia; intros; congruence.
  - destruct (F >? current e) eqn:Hgt.
    + apply Z.gtb_lt in Hgt. cbn. repeat split; try lia; try done.
      unfold UpPQ.to_list, UpPQ.push. apply heappush_perm.
    + rewrite Z.gtb_ltb in Hgt. apply Z.ltb_ge in Hgt.
      cbn. repeat split; try lia; try done.
      unfold DownPQ.to_list, DownPQ.push.
      rewrite heappush_perm. cbn. by rewrite Z.opp_involutive.
Qed.

Lemma add_request_effect_witness :
  history (add_request car_at_3 3) = [3; 3]
  /\ up (add_request car_at_3 6) ≡ₚ [6; 5; 8]
  /\ DownPQ.to_list (down (add_request car_at_3 1)) ≡ₚ [1; -2].
Proof.
  destruct (add_request_effect car_at_3 3) as (_ & Hs & _ & _).
  destruct (add_request_effect car_at_3 6) as (_ & _ & Hu & _).
  destruct (add_request_effect car_at_3 1) as (_ & _ & _ & Hd).
  split; [|split].
  - apply Hs. reflexivity.
  - apply Hu. reflexivity.
  - apply Hd. reflexivity.
Defined.

(** ** The direction an idle car picks *)

Lemma peek_of_heappop heap t h :
  heapq.heappop heap = Some (t, h) -> UpPQ.peek heap = Some t.
Proof.
  intros Hp. apply heappop_head in Hp. by destruct heap; cbn in *.
Qed.

Lemma idle_up_serves_from_up (e : Elevator) :
  direction e = Idle -> idle_choice e = Some Up -> up e <> [] -> serves_from_up e.
Proof.
  intros Hd Hc Hne. unfold serves_from_up, move_to_next. rewrite Hd, Hc.
  destruct (heappop_nonempty (up e) Hne) as (t & h & Hp).
  unfold serve. cbn [direction set_direction].
  rewrite (serve_up_pops_up (set_direction e Up) t h Hne Hp).
  exists t, h. repeat split; try done. by apply (peek_of_heappop _ _ h).
Qed.

Lemma idle_down_serves_from_down (e : Elevator) :
  direction e = Idle -> idle_choice e = Some Down -> down e <> [] -> serves_from_down e.
Proof.
  intros Hd Hc Hne. unfold serves_from_down, move_to_next. rewrite Hd, Hc.
  destruct (heappop_nonempty (down e) Hne) as (t & h & Hp).
  unfold serve. cbn [direction set_direction].
  rewrite (serve_down_pops_down (set_direction e Down) t h Hne Hp).
  exists (- t), h. rewrite Z.opp_involutive. repeat split; try done.
  apply heappop_head in Hp. by destruct (down e); cbn in *; simplify_eq.
Qed.

(** C5. An idle car with both queues non-empty serves the queue whose peek is
    strictly closer to its floor, and the Up-queue when the two distances are
    equal; with one queue non-empty it serves that one; with both empty it
    stays idle and serves nothing. *)
Theorem idle_car_choice (e : Elevator) :
  direction e = Idle ->
  match UpPQ.peek (up e), DownPQ.peek (down e) with
  | Some up_p, Some down_p =>
      (Z.abs (up_p - current e) < Z.abs (down_p - current e) ->
         idle_choice e = Some Up /\ serves_from_up e) /\
      (Z.abs (down_p - current e) < Z.abs (up_p - current e) ->
         idle_choice e = Some Down /\ serves_from_down e) /\
      (Z.abs (up_p - current e) = Z.abs (down_p - current e) ->
         idle_choice e = Some Up /\ serves_from_up e)
  | Some _, None => idle_choice e = Some Up /\ serves_from_up e
  | None, Some _ => idle_choice e = Some Down /\ serves_from_down e
  | None, None =>
      idle_choice e = None /\ move_to_next e = (e, None)
  end.
Proof.
  intros Hd.
  destruct (up e) as [|u us] eqn:Hu; destruct (down e) as [|d ds] eqn:Hdn;
    cbn [UpPQ.peek DownPQ.peek].
  - unfold move_to_next, idle_choice. rewrite Hd, Hu, Hdn. by cbn.
  - assert (Hc : idle_choice e = Some Down).
    { unfold idle_choice. by rewrite Hu, Hdn. }
    split; [done|]. apply idle_down_serves_from_down; try done. by rewrite Hdn.
  - assert (Hc : idle_choice e = Some Up).
    { unfold idle_choice. by rewrite Hu, Hdn. }
    split; [done|]. apply idle_up_serves_from_up; try done. by rewrite Hu.
  - assert (Hup : idle_choice e = Some Up -> idle_choice e = Some Up /\ serves_from_up e).
    { intros Hc. split; [done|].
      apply idle_up_serves_from_up; try done. by rewrite Hu. }
    assert (Hdown : idle_choice e = Some Down ->
                    idle_choice e = Some Down /\ serves_from_down e).
    { intros Hc. split; [done|].
      apply idle_down_serves_from_down; try done. by rewrite Hdn. }
    assert (Hc : idle_choice e =
                 if Z.abs (u - current e) <=? Z.abs (- d - current e)
                 then Some Up else Some Down).
    { unfold idle_choice. by rewrite Hu, Hdn. }
    split; [|split]; intros Hcmp; [apply Hup | apply Hdown | apply Hup];
      rewrite Hc;
      destruct (Z.leb_spec (Z.abs (u - current e)) (Z.abs (- d - current e)));
      done || lia.
Qed.

Lemma idle_car_choice_witness :
  idle_choice idle_car_between = Some Down /\ serves_from_down idle_car_between.
Proof.
  pose proof (idle_car_choice idle_car_between eq_refl) as H.
  cbn in H. destruct H as (_ & H & _). apply H. lia.
Defined.

(** ** The dispatcher *)

Lemma suitable_iff floor e : suitable floor e = true <-> Suitable floor e.
Proof.
  unfold suitable, Suitable. destruct (direction e).
  - rewrite Z.geb_le. intuition (try congruence; try lia).
  - rewrite Z.leb_le. intuition (try congruence; try lia).
  - intuition.
Qed.

Lemma Direction_eqb_Idle d : Direction_eqb d Idle = true <-> d = Idle.
Proof. destruct d; cbn; intuition congruence. Qed.

(** C7. The dispatcher picks by strict priority: the only suitable car; else
    the only idle car; else the nearer car, the first one on a tie.  The
    choice depends on nothing but the floor and the two cars' direction and
    current floor, and being a function of them it changes no car. *)
Theorem assign_priority (floor : Z) (A B : Elevator) :
  let r := assign_request_to_elevator floor A B in
  let distA := Z.abs (current A - floor) in
  let distB := Z.abs (current B - floor) in
  (Suitable floor A -> ~ Suitable floor B -> r = CarA) /\
  (Suitable floor B -> ~ Suitable floor A -> r = CarB) /\
  ((Suitable floor A <-> Suitable floor B) ->
     (direction A = Idle -> direction B <> Idle -> r = CarA) /\
     (direction B = Idle -> direction A <> Idle -> r = CarB) /\
     ((direction A = Idle <-> direction B = Idle) ->
        (distA < distB -> r = CarA) /\
        (distB < distA -> r = CarB) /\
        (distA = distB -> r = CarA))) /\
  (forall A' B',
     direction A' = direction A -> current A' = current A ->
     direction B' = direction B -> current B' = current B ->
     assign_request_to_elevator floor A' B' = r).
Proof.
  cbv zeta. unfold assign_request_to_elevator.
  pose proof (suitable_iff floor A) as HA.
  pose proof (suitable_iff floor B) as HB.
  pose proof (Direction_eqb_Idle (direction A)) as HiA.
  pose proof (Direction_eqb_Idle (direction B)) as HiB.
  split; [|split; [|split]].
  - intros Ha Hb. apply HA in Ha.
    destruct (suitable floor B) eqn:Hsb; [exfalso; apply Hb; tauto|].
    by rewrite Ha.
  - intros Hb Ha. apply HB in Hb.
    destruct (suitable floor A) eqn:Hsa; [exfalso; apply Ha; tauto|].
    by rewrite Hb.
  - intros Hiff.
    assert (Hs : suitable floor A = suitable floor B).
    { destruct (suitable floor A), (suitable floor B); try done;
        exfalso; intuition congruence. }
    rewrite Hs, andb_negb_r.
    split; [|split].
    + intros Ha Hb. apply HiA in Ha. rewrite Ha.
      destruct (Direction_eqb (direction B) Idle); [exfalso; apply Hb; tauto|done].
    + intros Hb Ha. apply HiB in Hb. rewrite Hb.
      destruct (Direction_eqb (direction A) Idle); [exfalso; apply Ha; tauto|done].
    + intros Hidle.
      assert (Hi : Direction_eqb (direction A) Idle = Direction_eqb (direction B) Idle).
      { destruct (Direction_eqb (direction A) Idle),
          (Direction_eqb (direction B) Idle); try done; exfalso; intuition congruence. }
      rewrite Hi. rewrite andb_negb_r.
      split; [|split]; intros Hcmp;
        destruct (Z.leb_spec (Z.abs (current A - floor)) (Z.abs (current B - floor)));
        done || lia.
  - intros A' B' HdA HcA HdB HcB. unfold suitable.
    by rewrite HdA, HcA, HdB, HcB.
Qed.

Lemma assign_priority_witness :
  assign_request_to_elevator 5 (mkElevator "A" (-3) Up [5] [] [-3])
                               (new_elevator "B") = CarB.
Proof.
  destruct (assign_priority 5 (mkElevator "A" (-3) Up [5] [] [-3])
                            (new_elevator "B")) as (_ & _ & H & _).
  assert (Hs : forall e, direction e <> Down -> 5 >= current e -> Suitable 5 e).
  { intros e Hd Hc. unfold Suitable. destruct (direction e); tauto. }
  destruct H as (_ & H & _).
  - split; intros _; apply Hs; cbn; (discriminate || lia).
  - apply H; [reflexivity | discriminate].
Defined.

(** ** Requests outside the building *)

(** C8. A floor outside [MIN_FLOOR, MAX_FLOOR] is rejected with the range
    error and the whole session state is returned untouched. *)
Theorem submit_out_of_range (s : Sim) (F : Z) :
  F < MIN_FLOOR \/ F > MAX_FLOOR ->
  submit_request s F = (s, RangeError).
Proof.
  intros H. unfold submit_request.
  assert (Hb : (F <? MIN_FLOOR) || (F >? MAX_FLOOR) = true).
  { apply orb_true_iff. rewrite Z.ltb_lt, Z.gtb_lt. lia. }
  by rewrite Hb.
Qed.

Lemma submit_out_of_range_witness :
  submit_request initial 31 = (initial, RangeError)
  /\ submit_request initial (-11) = (initial, RangeError).
Proof.
  split; apply submit_out_of_range; unfold MIN_FLOOR, MAX_FLOOR; lia.
Defined.

(** ** auto: running until nothing is pending *)

Lemma auto_loop_spec (fuel : nat) (steps : Z) (s : Sim) :
  0 <= steps <= SAFETY_CAP ->
  SAFETY_CAP < steps + Z.of_nat fuel ->
  exists r, auto_loop fuel steps s = Some r
    /\ steps <= auto_steps r <= SAFETY_CAP + 1
    /\ auto_state r = Nat.iter (Z.to_nat (auto_steps r - steps)) step_state s
    /\ (auto_safety_stop r = true <-> auto_steps r = SAFETY_CAP + 1)
    /\ (auto_safety_stop r = false -> pending (auto_state r) = false)
    /\ (pending s = false -> r = mkAuto s steps false).
Proof.
  revert steps s. induction fuel as [|fuel IH]; intros steps s Hsteps Hfuel.
  - lia.
  - cbn [auto_loop]. destruct (pending s) eqn:Hp; cbn [negb].
    + destruct (steps + 1 >? SAFETY_CAP) eqn:Hcap.
      * apply Z.gtb_lt in Hcap. eexists. split; [reflexivity|]. cbn.
        replace (steps + 1 - steps) with 1 by lia.
        repeat split; try lia; try done.
      * rewrite Z.gtb_ltb in Hcap. apply Z.ltb_ge in Hcap.
        destruct (IH (steps + 1) (fst (step s))) as (r & Hr & Hb & Hst & Hsafe & Hpend & _);
          [lia | lia |].
        exists r. split; [done|]. split; [lia|]. split; [|split; [done|split; [done|done]]].
        rewrite Hst.
        replace (Z.to_nat (auto_steps r - steps))
          with (Z.to_nat (auto_steps r - (steps + 1)) + 1)%nat by lia.
        by rewrite Nat.iter_add.
    + eexists. split; [reflexivity|]. cbn. rewrite Z.sub_diag.
      unfold SAFETY_CAP in *. repeat split; try lia; try done.
Qed.

(** C3, as stated, fails: with 1001 pending targets the loop runs 1001
    iterations, one more than the cap of 1000. *)
Lemma auto_runs_past_cap :
  option_map auto_steps (run_auto busy_state) = Some 1001
  /\ ~ (1001 <= SAFETY_CAP).
Proof.
  split; [vm_compute; reflexivity | unfold SAFETY_CAP; lia].
Qed.

(** [auto] ends, and what it leaves is the step repeated some number of
    times. *)
Lemma run_auto_iter (s : Sim) :
  exists r, run_auto s = Some r
    /\ auto_state r = Nat.iter (Z.to_nat (auto_steps r)) step_state s.
Proof.
  destruct (auto_loop_spec auto_fuel 0 s) as (r & Hr & _ & Hst & _).
  { unfold SAFETY_CAP. lia. }
  { unfold SAFETY_CAP, auto_fuel. lia. }
  exists r. by rewrite Z.sub_0_r in Hst.
Qed.

(** C3 (amended). [auto] always terminates.  It performs at most
    [SAFETY_CAP + 1] iterations of the step over all cars: the counter is
    tested after the increment, so the run is halted when it exceeds the cap.
    When the run is not halted by the cap nothing is pending any more; when
    targets are still pending at the end the safety stop was reported; and
    with nothing pending at the start no iteration is performed and the run
    reports completion. *)
Theorem run_auto_terminates (s : Sim) :
  exists r, run_auto s = Some r
    /\ 0 <= auto_steps r <= SAFETY_CAP + 1
    /\ auto_state r = Nat.iter (Z.to_nat (auto_steps r)) step_state s
    /\ (auto_safety_stop r = true <-> auto_steps r = SAFETY_CAP + 1)
    /\ (pending (auto_state r) = true -> auto_safety_stop r = true)
    /\ (pending s = false -> r = mkAuto s 0 false).
Proof.
  destruct (auto_loop_spec auto_fuel 0 s) as (r & Hr & Hb & Hst & Hsafe & Hpend & H0).
  { unfold SAFETY_CAP. lia. }
  { unfold SAFETY_CAP, auto_fuel. lia. }
  exists r. rewrite Z.sub_0_r in Hst.
  split; [exact Hr|]. split; [lia|]. split; [exact Hst|].
  split; [exact Hsafe|]. split; [|exact H0].
  intros Hp. destruct (auto_safety_stop r) eqn:Hstop; [done|].
  rewrite (Hpend eq_refl) in Hp. discriminate.
Qed.

(** ** undo *)

Lemma count_perm l1 l2 : l1 ≡ₚ l2 -> forall G, count G l1 = count G l2.
Proof. intros H G. unfold count. by apply Permutation_count_occ. Qed.

Lemma count_not_in v l : v ∉ l -> count v l = 0%nat.
Proof.
  intros H. unfold count. apply count_occ_not_In.
  by rewrite <- list_elem_of_In.
Qed.


Lemma remove_one_lost v l : lost_one v l (remove_one v l).
Proof.
  intros G. unfold remove_one.
  destruct (heapq.list_remove v l) as [l'|] eqn:Hr.
  - rewrite (count_perm _ _ (list_remove_perm _ _ _ Hr) G).
    unfold count. cbn. destruct (decide (G = v)) as [->|Hne].
    + by destruct (Z.eq_dec v v).
    + destruct (Z.eq_dec v G); [congruence | done].
  - apply list_remove_None in Hr.
    destruct (decide (G = v)) as [->|Hne]; [|done].
    by rewrite count_not_in.
Qed.

Lemma count_map_opp G l : count G (map Z.opp l) = count (- G) l.
Proof.
  unfold count. induction l as [|x l IH]; cbn; [done|].
  rewrite IH. destruct (Z.eq_dec (- x) G), (Z.eq_dec x (- G)); try done; lia.
Qed.

Lemma remove_heapify_perm v heap b :
  (remove_heapify v heap b).1 ≡ₚ remove_one v heap.
Proof.
  unfold remove_heapify, remove_one.
  destruct (heapq.list_remove v heap); cbn; [apply heapify_perm | done].
Qed.

Lemma remove_heapify_flag v heap b :
  (remove_heapify v heap b).2 = bool_decide (v ∈ heap) || b.
Proof.
  unfold remove_heapify.
  destruct (heapq.list_remove v heap) as [l'|] eqn:Hr; cbn.
  - rewrite bool_decide_eq_true_2; [done|].
    apply list_remove_perm in Hr. rewrite Hr. apply list_elem_of_here.
  - apply list_remove_None in Hr. by rewrite bool_decide_eq_false_2.
Qed.

Lemma lost_one_up v heap b :
  lost_one v (UpPQ.to_list heap) (UpPQ.to_list (remove_heapify v heap b).1).
Proof.
  intros G. unfold UpPQ.to_list.
  rewrite (count_perm _ _ (remove_heapify_perm v heap b) G).
  apply remove_one_lost.
Qed.

Lemma lost_one_down v heap b :
  lost_one v (DownPQ.to_list heap) (DownPQ.to_list (remove_heapify (- v) heap b).1).
Proof.
  intros G. unfold DownPQ.to_list. rewrite !count_map_opp.
  rewrite (count_perm _ _ (remove_heapify_perm (- v) heap b) (- G)).
  rewrite (remove_one_lost (- v) heap (- G)).
  destruct (decide (- G = - v)), (decide (G = v)); try done; lia.
Qed.

Lemma elem_of_map_opp v heap : v ∈ map Z.opp heap <-> - v ∈ heap.
Proof.
  rewrite list_elem_of_fmap. split.
  - intros (y & -> & Hy). by rewrite Z.opp_involutive.
  - intros H. exists (- v). by rewrite Z.opp_involutive.
Qed.

Lemma undo_in_elevator_fields value e b :
  let e' := (undo_in_elevator value e b).1 in
  name e' = name e /\ current e' = current e /\ direction e' = direction e
  /\ history e' = history e
  /\ up e' = (remove_heapify value (up e) b).1
  /\ down e' = (remove_heapify (- value) (down e)
                  (remove_heapify value (up e) b).2).1
  /\ (undo_in_elevator value e b).2 =
       bool_decide (- value ∈ down e) || (bool_decide (value ∈ up e) || b).
Proof.
  unfold undo_in_elevator.
  pose proof (remove_heapify_flag value (up e) b) as Hf1.
  destruct (remove_heapify value (up e) b) as [u r1]. cbn [fst snd] in *.
  pose proof (remove_heapify_flag (- value) (down (set_up e u)) r1) as Hf2.
  destruct (remove_heapify (- value) (down (set_up e u)) r1) as [d r2] eqn:Hd.
  cbn [fst snd] in *. cbn in Hd. rewrite Hd. cbn. subst. repeat split; done.
Qed.

Lemma last_snoc_pop {A} (st : list A) (x : A) :
  Stack.pop (st ++ [x]) = (Some x, st).
Proof. unfold Stack.pop. by rewrite last_snoc, removelast_last. Qed.

(** What [undo_last] does when the top of the ledger is a request for [F]. *)
Lemma undo_last_request (s : Sim) (st : list (string * Z)) (F : Z) :
  undo_stack s = st ++ [("request"%string, F)] ->
  undo_last s =
    (mkSim (undo_in_elevator F (elevA s)
              (bool_decide (F ∈ req_q s))).1
           (undo_in_elevator F (elevB s)
              (undo_in_elevator F (elevA s) (bool_decide (F ∈ req_q s))).2).1
           (remove_one F (req_q s)) st,
     if held F s then Removed F else NotFound F).
Proof.
  intros Hst. unfold undo_last. rewrite Hst, last_snoc_pop. cbn [String.eqb Ascii.eqb Bool.eqb].
  assert (Hq : match heapq.list_remove F (req_q s) with
               | Some q' => (q', true)
               | None => (req_q s, false)
               end = (remove_one F (req_q s), bool_decide (F ∈ req_q s))).
  { unfold remove_one. destruct (heapq.list_remove F (req_q s)) as [q'|] eqn:Hr.
    - rewrite bool_decide_eq_true_2; [done|].
      apply list_remove_perm in Hr. rewrite Hr. apply list_elem_of_here.
    - apply list_remove_None in Hr. by rewrite bool_decide_eq_false_2. }
  rewrite Hq.
  pose proof (undo_in_elevator_fields F (elevA s) (bool_decide (F ∈ req_q s)))
    as (_ & _ & _ & _ & _ & _ & HfA).
  destruct (undo_in_elevator F (elevA s) (bool_decide (F ∈ req_q s))) as [a ra].
  cbn [fst snd] in *.
  pose proof (undo_in_elevator_fields F (elevB s) ra) as (_ & _ & _ & _ & _ & _ & HfB).
  destruct (undo_in_elevator F (elevB s) ra) as [b rb]. cbn [fst snd] in *.
  f_equal. subst ra rb. unfold held, containers, RequestQueue.to_list,
    UpPQ.to_list, DownPQ.to_list. cbn [existsb].
  rewrite !(bool_decide_ext _ _ (elem_of_map_opp F _)).
  destruct (bool_decide (F ∈ req_q s)), (bool_decide (F ∈ up (elevA s))),
    (bool_decide (- F ∈ down (elevA s))), (bool_decide (F ∈ up (elevB s))),
    (bool_decide (- F ∈ down (elevB s))); reflexivity.
Qed.

(** C1. The undo branch falls short of "cancel last request": its removals
    are not chained by [else] and not left by [break], so one undo takes the
    floor out of every container that holds it.  After request -3, request 5,
    step, request 5, a single undo removes both pending entries for floor 5:
    the one just requested, in car B, and the older one in car A.  The ledger
    entry of the older request stays behind, and the next undo answers
    "not found" for a request that no car has served. *)
Lemma undo_removes_two_entries :
  run initial [CmdRequest (-3); CmdRequest 5; CmdStep; CmdRequest 5]
    = Some two_pending_fives
  /\ pending_entries 5 two_pending_fives = 2%nat
  /\ pending_entries 5 (fst (undo_last two_pending_fives)) = 0%nat
  /\ ~ (pending_entries 5 two_pending_fives
        - pending_entries 5 (fst (undo_last two_pending_fives)) <= 1)%nat
  /\ snd (undo_last two_pending_fives) = Removed 5
  /\ undo_stack (fst (undo_last two_pending_fives))
     = [("request"%string, -3); ("request"%string, 5)]
  /\ snd (undo_last (fst (undo_last two_pending_fives))) = NotFound 5
  /\ count 5 (history (elevA two_pending_fives)
              ++ history (elevB two_pending_fives)) = 0%nat.
Proof.
  split; [vm_compute; reflexivity|].
  split; [vm_compute; reflexivity|].
  split; [vm_compute; reflexivity|].
  split; [vm_compute; lia|].
  split; [vm_compute; reflexivity|].
  split; [vm_compute; reflexivity|].
  split; [vm_compute; reflexivity|].
  vm_compute. reflexivity.
Qed.

(** The extent of that slip, for any session: when [undo_last] pops a ledger
    entry for floor [F], every container that holds [F] - the incoming FIFO,
    and the Up-queue and the Down-queue of each car - loses one occurrence of
    it, and nothing else changes in any of them.  Position, direction and
    history of the cars are untouched.  The outcome is "removed" if some
    container held [F] and "not found" otherwise. *)
Lemma undo_last_removes_in_every_container
    (s : Sim) (st : list (string * Z)) (F : Z) :
  undo_stack s = st ++ [("request"%string, F)] ->
  let s' := fst (undo_last s) in
  undo_stack s' = st
  /\ Forall2 (lost_one F) (containers s) (containers s')
  /\ (forall c, name (get_car s' c) = name (get_car s c)
             /\ current (get_car s' c) = current (get_car s c)
             /\ direction (get_car s' c) = direction (get_car s c)
             /\ history (get_car s' c) = history (get_car s c))
  /\ snd (undo_last s) = (if held F s then Removed F else NotFound F)
  /\ (held F s = false -> containers s' = containers s).
Proof.
  intros Hst. cbv zeta. rewrite (undo_last_request s st F Hst). cbn [fst snd].
  set (rq := bool_decide (F ∈ req_q s)).
  pose proof (undo_in_elevator_fields F (elevA s) rq)
    as (HnA & HcA & HdA & HhA & HuA & HdnA & HfA).
  destruct (undo_in_elevator F (elevA s) rq) as [a ra]. cbn [fst snd] in *.
  pose proof (undo_in_elevator_fields F (elevB s) ra)
    as (HnB & HcB & HdB & HhB & HuB & HdnB & HfB).
  destruct (undo_in_elevator F (elevB s) ra) as [b rb]. cbn [fst snd] in *.
  split; [done|]. split; [|split; [|split]].
  - unfold containers. cbn [elevA elevB req_q].
    rewrite HuA, HdnA, HuB, HdnB.
    constructor; [apply remove_one_lost|].
    constructor; [apply lost_one_up|].
    constructor; [apply lost_one_down|].
    constructor; [apply lost_one_up|].
    constructor; [apply lost_one_down|].
    constructor.
  - intros [|]; cbn [get_car elevA elevB]; done.
  - done.
  - unfold held, containers, RequestQueue.to_list, UpPQ.to_list, DownPQ.to_list.
    cbn [existsb elevA elevB req_q].
    rewrite !orb_false_iff, !bool_decide_eq_false.
    intros (Hq & Hua & Hda & Hub & Hdb & _).
    rewrite elem_of_map_opp in Hda, Hdb.
    rewrite HuA, HdnA, HuB, HdnB. unfold remove_heapify, remove_one.
    apply list_remove_None in Hq, Hua, Hda, Hub, Hdb.
    by rewrite Hq, Hua, Hda, Hub, Hdb.
Qed.

Lemma undo_last_removes_in_every_container_witness :
  Forall2 (lost_one 5) (containers two_pending_fives)
          (containers (fst (undo_last two_pending_fives)))
  /\ snd (undo_last two_pending_fives) = Removed 5.
Proof.
  destruct (undo_last_removes_in_every_container two_pending_fives
              [("request"%string, -3); ("request"%string, 5)] 5 eq_refl)
    as (_ & H & _ & Ho & _).
  split; [exact H | exact Ho].
Defined.

(** ** Sessions reached from the initial state *)


(** A property that holds of the initial session and is kept by every
    command holds of every reachable session. *)
Lemma run_preserves (P : Sim -> Prop) :
  (forall s c s', P s -> exec s c = Some s' -> P s') ->
  forall cmds s s', P s -> run s cmds = Some s' -> P s'.
Proof.
  intros Hstep. induction cmds as [|c cmds IH]; intros s s' HP; cbn [run].
  - by intros [= <-].
  - destruct (exec s c) as [s1|] eqn:He; [|done].
    intros Hr. eapply IH; [|exact Hr]. eapply Hstep; eauto.
Qed.

Lemma iter_preserves (P : Sim -> Prop) (f : Sim -> Sim) :
  (forall s, P s -> P (f s)) -> forall n s, P s -> P (Nat.iter n f s).
Proof.
  intros Hf. induction n as [|n IH]; intros s HP; cbn; [done|].
  apply Hf. by apply IH.
Qed.

(** Every command is kept as soon as request, undo and step are: [auto] only
    repeats the step. *)
Lemma exec_preserves (P : Sim -> Prop) :
  (forall s f, P s -> P (fst (submit_request s f))) ->
  (forall s, P s -> P (fst (undo_last s))) ->
  (forall s, P s -> P (fst (step s))) ->
  forall s c s', P s -> exec s c = Some s' -> P s'.
Proof.
  intros Hreq Hundo Hstep s c s' HP. destruct c; cbn [exec].
  - intros [= <-]. by apply Hreq.
  - intros [= <-]. by apply Hundo.
  - intros [= <-]. by apply Hstep.
  - destruct (run_auto_iter s) as (r & Hr & Hst).
    rewrite Hr. cbn [option_map]. intros [= <-]. rewrite Hst.
    apply iter_preserves; [|done]. intros s0. apply Hstep.
Qed.

Lemma run_total (s : Sim) (cmds : list Command) : exists s', run s cmds = Some s'.
Proof.
  revert s. induction cmds as [|c cmds IH]; intros s; cbn [run]; [eauto|].
  assert (He : exists s1, exec s c = Some s1).
  { destruct c; cbn [exec]; eauto.
    destruct (run_auto_iter s) as (r & -> & _). cbn [option_map]. eauto. }
  destruct He as [s1 ->]. apply IH.
Qed.

(** *** The incoming FIFO is drained by every request *)

Lemma submit_request_in_range (s : Sim) (F : Z) :
  MIN_FLOOR <= F <= MAX_FLOOR -> req_q s = [] ->
  let c := assign_request_to_elevator F (elevA s) (elevB s) in
  submit_request s F =
    (set_car (mkSim (elevA s) (elevB s) []
                    (undo_stack s ++ [("request"%string, F)]))
             c (add_request (get_car s c) F),
     Assigned F (name (get_car s c))).
Proof.
  intros Hr Hq. unfold submit_request.
  assert (Hb : (F <? MIN_FLOOR) || (F >? MAX_FLOOR) = false).
  { apply orb_false_iff. rewrite Z.ltb_ge, Z.gtb_ltb, Z.ltb_ge. lia. }
  rewrite Hb, Hq. cbn [RequestQueue.push RequestQueue.pop app]. cbv zeta.
  unfold Stack.push.
  destruct (assign_request_to_elevator F (elevA s) (elevB s));
    cbn [get_car set_car elevA elevB req_q undo_stack].
  - by rewrite add_request_name.
  - by rewrite add_request_name.
Qed.

Lemma submit_request_req_q (s : Sim) (F : Z) :
  req_q s = [] -> req_q (fst (submit_request s F)) = [].
Proof.
  intros Hq. unfold submit_request.
  destruct ((F <? MIN_FLOOR) || (F >? MAX_FLOOR)); [done|].
  rewrite Hq. cbn [RequestQueue.push RequestQueue.pop app]. cbv zeta.
  by destruct (assign_request_to_elevator F (elevA s) (elevB s)).
Qed.

Lemma undo_last_req_q (s : Sim) : req_q s = [] -> req_q (fst (undo_last s)) = [].
Proof.
  intros Hq. unfold undo_last.
  destruct (Stack.pop (undo_stack s)) as [[[typ value]|] st]; [|done].
  destruct (String.eqb typ "request"); [|done].
  rewrite Hq. cbn [heapq.list_remove].
  destruct (undo_in_elevator value (elevA s) false) as [a ra].
  by destruct (undo_in_elevator value (elevB s) ra) as [b rb].
Qed.

Lemma step_req_q (s : Sim) : req_q (fst (step s)) = req_q s.
Proof.
  unfold step. destruct (move_to_next (elevA s)) as [a ra].
  by destruct (move_to_next (elevB s)) as [b rb].
Qed.

Lemma reachable_req_q_empty (s : Sim) : reachable s -> req_q s = [].
Proof.
  intros [cmds Hr].
  apply (run_preserves (fun s => req_q s = [])
           (exec_preserves _ submit_request_req_q undo_last_req_q
              (fun s H => eq_trans (step_req_q s) H))
           cmds initial s); done.
Qed.

(** ** Every floor stays inside the building *)

(** The three things one call of [move_to_next] can do. *)
Lemma move_to_next_cases (e : Elevator) :
  (snd (move_to_next e) = None
     /\ up e = [] /\ down e = []
     /\ up (fst (move_to_next e)) = [] /\ down (fst (move_to_next e)) = []
     /\ name (fst (move_to_next e)) = name e
     /\ current (fst (move_to_next e)) = current e
     /\ history (fst (move_to_next e)) = history e)
  \/ (exists t h d,
        heapq.heappop (up e) = Some (t, h)
        /\ move_to_next e =
             (mkElevator (name e) t d h (down e) (history e ++ [t]), Some t))
  \/ (exists t h d,
        heapq.heappop (down e) = Some (t, h)
        /\ move_to_next e =
             (mkElevator (name e) (- t) d (up e) h (history e ++ [- t]), Some (- t))).
Proof.
  assert (HU : forall e0 : Elevator, up e0 <> [] ->
            exists t h d, heapq.heappop (up e0) = Some (t, h)
              /\ serve_up e0 =
                   (mkElevator (name e0) t d h (down e0) (history e0 ++ [t]), Some t)).
  { intros e0 Hne. destruct (heappop_nonempty _ Hne) as (t & h & Hp).
    exists t, h. eexists. split; [done|]. by apply serve_up_pops_up. }
  assert (HD : forall e0 : Elevator, down e0 <> [] ->
            exists t h d, heapq.heappop (down e0) = Some (t, h)
              /\ serve_down e0 =
                   (mkElevator (name e0) (- t) d (up e0) h (history e0 ++ [- t]),
                    Some (- t))).
  { intros e0 Hne. destruct (heappop_nonempty _ Hne) as (t & h & Hp).
    exists t, h. eexists. split; [done|]. by apply serve_down_pops_down. }
  assert (HUD : forall e0 : Elevator, up e0 = [] -> down e0 <> [] ->
            exists t h d, heapq.heappop (down e0) = Some (t, h)
              /\ serve_up e0 =
                   (mkElevator (name e0) (- t) d (up e0) h (history e0 ++ [- t]),
                    Some (- t))).
  { intros e0 Hu Hne. destruct (heappop_nonempty _ Hne) as (t & h & Hp).
    exists t, h. eexists. split; [done|]. rewrite Hu. by apply serve_up_pops_down. }
  assert (HDU : forall e0 : Elevator, down e0 = [] -> up e0 <> [] ->
            exists t h d, heapq.heappop (up e0) = Some (t, h)
              /\ serve_down e0 =
                   (mkElevator (name e0) t d h (down e0) (history e0 ++ [t]), Some t)).
  { intros e0 Hd Hne. destruct (heappop_nonempty _ Hne) as (t & h & Hp).
    exists t, h. eexists. split; [done|]. rewrite Hd. by apply serve_down_pops_up. }
  unfold move_to_next, serve.
  destruct (direction e) eqn:Hdir.
  - destruct (up e) as [|u us] eqn:Hu.
    + destruct (down e) as [|d ds] eqn:Hdn.
      * left. rewrite serve_up_nothing by done. destruct e; cbn in *. by subst.
      * right; right. destruct (HUD e) as (t & h & d' & Hp & Hs); [done|by rewrite Hdn|].
        rewrite Hdn in Hp. rewrite Hs, Hu. eauto 6.
    + right; left. destruct (HU e) as (t & h & d' & Hp & Hs); [by rewrite Hu|].
      rewrite Hu in Hp. rewrite Hs. eauto 6.
  - destruct (down e) as [|d ds] eqn:Hdn.
    + destruct (up e) as [|u us] eqn:Hu.
      * left. rewrite serve_down_nothing by done. destruct e; cbn in *. by subst.
      * right; left. destruct (HDU e) as (t & h & d' & Hp & Hs); [done|by rewrite Hu|].
        rewrite Hu in Hp. rewrite Hs, Hdn. eauto 6.
    + right; right. destruct (HD e) as (t & h & d' & Hp & Hs); [by rewrite Hdn|].
      rewrite Hdn in Hp. rewrite Hs. eauto 6.
  - unfold idle_choice, UpPQ.peek, DownPQ.peek.
    destruct (up e) as [|u us] eqn:Hu; destruct (down e) as [|d ds] eqn:Hdn.
    + left. cbn [fst snd]. by rewrite Hu, Hdn.
    + right; right. cbn [direction set_direction].
      destruct (HD (set_direction e Down)) as (t & h & d' & Hp & Hs);
        [cbn; by rewrite Hdn|].
      cbn [down set_direction] in Hp. rewrite Hdn in Hp. rewrite Hs.
      cbn [name up history set_direction]. rewrite Hu. eauto 6.
    + right; left. cbn [direction set_direction].
      destruct (HU (set_direction e Up)) as (t & h & d' & Hp & Hs);
        [cbn; by rewrite Hu|].
      cbn [up set_direction] in Hp. rewrite Hu in Hp. rewrite Hs.
      cbn [name down history set_direction]. rewrite Hdn. eauto 6.
    + destruct (Z.abs (u - current e) <=? Z.abs (- d - current e));
        cbn [direction set_direction].
      * right; left.
        destruct (HU (set_direction e Up)) as (t & h & d' & Hp & Hs);
          [cbn; by rewrite Hu|].
        cbn [up set_direction] in Hp. rewrite Hu in Hp. rewrite Hs.
        cbn [name down history set_direction]. rewrite Hdn. eauto 6.
      * right; right.
        destruct (HD (set_direction e Down)) as (t & h & d' & Hp & Hs);
          [cbn; by rewrite Hdn|].
        cbn [down set_direction] in Hp. rewrite Hdn in Hp. rewrite Hs.
        cbn [name up history set_direction]. rewrite Hu. eauto 6.
Qed.


Lemma car_in_range_mk n c d u dn hi :
  in_range c -> Forall in_range u -> Forall in_range (map Z.opp dn) ->
  Forall in_range hi -> car_in_range (mkElevator n c d u dn hi).
Proof. intros Hc Hu Hd Hh. exact (conj Hc (conj Hu (conj Hd Hh))). Qed.

Lemma Forall_snoc (P : Z -> Prop) (l : list Z) (x : Z) :
  Forall P l -> P x -> Forall P (l ++ [x]).
Proof. intros Hl Hx. apply Forall_app. split; [done|]. by constructor. Qed.

Lemma add_request_in_range (e : Elevator) (F : Z) :
  in_range F -> car_in_range e -> car_in_range (add_request e F).
Proof.
  intros HF (Hc & Hu & Hd & Hh). unfold add_request.
  unfold UpPQ.to_list, DownPQ.to_list, LinkedList.to_list in *.
  destruct (F =? current e).
  - apply car_in_range_mk; try done. by apply Forall_snoc.
  - destruct (F >? current e); apply car_in_range_mk; try done.
    + unfold UpPQ.push. rewrite heappush_perm. by constructor.
    + unfold DownPQ.push. rewrite heappush_perm. cbn.
      rewrite Z.opp_involutive. by constructor.
Qed.

Lemma move_to_next_in_range (e : Elevator) :
  car_in_range e -> car_in_range (fst (move_to_next e)).
Proof.
  intros (Hc & Hu & Hd & Hh).
  unfold UpPQ.to_list, DownPQ.to_list, LinkedList.to_list in *.
  destruct (move_to_next_cases e)
    as [(_ & _ & _ & Hu' & Hd' & _ & Hc' & Hh')
       |[(t & h & d & Hp & ->)|(t & h & d & Hp & ->)]].
  - unfold car_in_range, UpPQ.to_list, DownPQ.to_list, LinkedList.to_list.
    rewrite Hu', Hd', Hc', Hh'. split; [done|]. split; [constructor|].
    split; [constructor|done].
  - cbn [fst]. apply heappop_perm in Hp. rewrite Hp in Hu.
    apply Forall_cons in Hu as [Ht Hu].
    apply car_in_range_mk; try done. by apply Forall_snoc.
  - cbn [fst]. apply heappop_perm in Hp. rewrite Hp in Hd. cbn in Hd.
    apply Forall_cons in Hd as [Ht Hd].
    apply car_in_range_mk; try done. by apply Forall_snoc.
Qed.

Lemma remove_one_Forall (P : Z -> Prop) (v : Z) (l : list Z) :
  Forall P l -> Forall P (remove_one v l).
Proof.
  intros H. unfold remove_one.
  destruct (heapq.list_remove v l) as [l'|] eqn:Hr; [|done].
  apply list_remove_perm in Hr. rewrite Hr in H.
  by apply Forall_cons in H as [_ H].
Qed.

Lemma undo_in_elevator_in_range (v : Z) (e : Elevator) (b : bool) :
  car_in_range e -> car_in_range (undo_in_elevator v e b).1.
Proof.
  intros (Hc & Hu & Hd & Hh). unfold car_in_range.
  unfold UpPQ.to_list, DownPQ.to_list, LinkedList.to_list in *.
  destruct (undo_in_elevator_fields v e b) as (_ & -> & _ & -> & -> & -> & _).
  split; [done|]. split; [|split; [|done]].
  - rewrite remove_heapify_perm. by apply remove_one_Forall.
  - rewrite remove_heapify_perm.
    unfold remove_one. destruct (heapq.list_remove (- v) (down e)) as [l'|] eqn:Hr;
      [|done].
    apply list_remove_perm in Hr. rewrite Hr in Hd. cbn in Hd.
    by apply Forall_cons in Hd as [_ Hd].
Qed.

Lemma submit_request_sim_in_range (s : Sim) (f : Z) :
  sim_in_range s -> sim_in_range (fst (submit_request s f)).
Proof.
  intros (HA & HB & Hq). unfold submit_request.
  destruct (f <? MIN_FLOOR) eqn:Hlo; [done|].
  destruct (f >? MAX_FLOOR) eqn:Hhi; [done|]. cbn [orb].
  apply Z.ltb_ge in Hlo. rewrite Z.gtb_ltb in Hhi. apply Z.ltb_ge in Hhi.
  unfold RequestQueue.to_list, RequestQueue.push in *.
  assert (Hq' : Forall in_range (req_q s ++ [f])).
  { apply Forall_snoc; [done|]. unfold in_range. lia. }
  destruct (req_q s ++ [f]) as [|x q'] eqn:Hpush; cbn [RequestQueue.pop]; cbv zeta.
  - done.
  - apply Forall_cons in Hq' as [Hx Hq'].
    destruct (assign_request_to_elevator x (elevA s) (elevB s));
      cbn [fst get_car set_car elevA elevB req_q undo_stack];
      (split; [|split]); try done; by apply add_request_in_range.
Qed.

Lemma undo_last_sim_in_range (s : Sim) :
  sim_in_range s -> sim_in_range (fst (undo_last s)).
Proof.
  intros (HA & HB & Hq). unfold undo_last.
  destruct (Stack.pop (undo_stack s)) as [[[typ value]|] st]; [|done].
  destruct (String.eqb typ "request"); [|done].
  set (qr := match heapq.list_remove value (req_q s) with
             | Some q' => (q', true)
             | None => (req_q s, false)
             end).
  assert (Hqr : Forall in_range qr.1).
  { pose proof (remove_one_Forall in_range value (req_q s) Hq) as H.
    unfold remove_one in H. subst qr.
    by destruct (heapq.list_remove value (req_q s)). }
  destruct qr as [q r0]. cbn [fst] in Hqr.
  pose proof (undo_in_elevator_in_range value (elevA s) r0 HA) as HA'.
  destruct (undo_in_elevator value (elevA s) r0) as [a ra].
  pose proof (undo_in_elevator_in_range value (elevB s) ra HB) as HB'.
  destruct (undo_in_elevator value (elevB s) ra) as [b rb].
  done.
Qed.

Lemma step_sim_in_range (s : Sim) :
  sim_in_range s -> sim_in_range (fst (step s)).
Proof.
  intros (HA & HB & Hq). unfold step.
  pose proof (move_to_next_in_range (elevA s) HA) as HA'.
  destruct (move_to_next (elevA s)) as [a ra].
  pose proof (move_to_next_in_range (elevB s) HB) as HB'.
  destruct (move_to_next (elevB s)) as [b rb].
  done.
Qed.

Lemma initial_in_range : sim_in_range initial.
Proof.
  assert (H0 : in_range 0) by (unfold in_range, MIN_FLOOR, MAX_FLOOR; lia).
  split; [|split]; [by apply car_in_range_mk | by apply car_in_range_mk | constructor].
Qed.

(** C10. Whatever commands are run from the initial session (requests that
    fail the bounds check are rejected and change nothing), the current floor
    of every car and every floor in a queue, in the incoming FIFO or in a
    history lies in [MIN_FLOOR, MAX_FLOOR]. *)
Theorem floors_stay_in_range (cmds : list Command) (s : Sim) :
  run initial cmds = Some s ->
  sim_in_range s.
Proof.
  intros Hr.
  apply (run_preserves sim_in_range
           (exec_preserves _ submit_request_sim_in_range undo_last_sim_in_range
              step_sim_in_range)
           cmds initial s); [apply initial_in_range | done].
Qed.

Lemma floors_stay_in_range_witness :
  sim_in_range two_pending_fives.
Proof.
  apply (floors_stay_in_range
           [CmdRequest (-3); CmdRequest 5; CmdStep; CmdRequest 5]).
  vm_compute. reflexivity.
Defined.

(** ** heapq keeps the heap invariant *)

Section heapq_invariant.
Local Open Scope nat_scope.

Lemma below_ge s p : below s p -> s <= p.
Proof. induction 1; lia. Qed.

Lemma below_parent s p : below s p -> s < p -> below s ((p - 1) / 2).
Proof.
  intros Hb Hlt. destruct Hb as [|q Hq|q Hq].
  - lia.
  - by replace ((2 * q + 1 - 1) / 2) with q by lia.
  - by replace ((2 * q + 2 - 1) / 2) with q by lia.
Qed.

Lemma below_zero p : below 0 p.
Proof.
  induction p as [p IH] using lt_wf_ind.
  destruct (decide (p = 0)) as [->|Hp]; [constructor|].
  assert (Hq : (p - 1) / 2 < p) by lia.
  specialize (IH _ Hq).
  assert (Hc : p = 2 * ((p - 1) / 2) + 1 \/ p = 2 * ((p - 1) / 2) + 2) by lia.
  destruct Hc as [Hc | Hc]; rewrite Hc; by constructor.
Qed.

Lemma heap_from_0 heap : heap_from 0 heap <-> heapq.is_heap heap.
Proof.
  unfold heap_from, heapq.is_heap. split; intros H j Hj; [|intros _]; apply H; lia.
Qed.

(** The invariant read from the parent's side, as [heapq] documents it. *)
Lemma is_heap_children heap :
  heapq.is_heap heap <->
  forall k, (2 * k + 1 < length heap -> (heap !!! k <= heap !!! (2 * k + 1)%nat)%Z)
         /\ (2 * k + 2 < length heap -> (heap !!! k <= heap !!! (2 * k + 2)%nat)%Z).
Proof.
  unfold heapq.is_heap. split.
  - intros H k. split; intros Hk.
    + specialize (H (2 * k + 1)).
      replace ((2 * k + 1 - 1) / 2) with k in H by lia. apply H. lia.
    + specialize (H (2 * k + 2)).
      replace ((2 * k + 2 - 1) / 2) with k in H by lia. apply H. lia.
  - intros H j Hj. destruct (H ((j - 1) / 2)) as [Hl Hr].
    assert (Hc : j = 2 * ((j - 1) / 2) + 1 \/ j = 2 * ((j - 1) / 2) + 2) by lia.
    destruct Hc as [Hc | Hc].
    + rewrite <- Hc in Hl. apply Hl. lia.
    + rewrite <- Hc in Hr. apply Hr. lia.
Qed.

Lemma lookup_insert_Z (A : list Z) (i j : nat) (x : Z) :
  i < length A -> <[i := x]> A !!! j = if decide (i = j) then x else A !!! j.
Proof.
  intros Hi. rewrite list_lookup_total_insert.
  destruct (decide (i = j)); [by rewrite decide_True | by rewrite decide_False by tauto].
Qed.

Ltac insert_cases :=
  rewrite ?length_insert in *;
  rewrite ?lookup_insert_Z by (rewrite ?length_insert; lia);
  repeat (case_decide; try lia).

(** Leaving the loop: the item is written into the hole. *)
Lemma _siftdown_exit s A pos newitem :
  down_inv s A pos newitem ->
  (s < pos -> (A !!! ((pos - 1) / 2)%nat <= newitem)%Z) ->
  heap_from s (<[pos := newitem]> A).
Proof.
  intros [Hpos Hb He Hc Hg] Hexit j Hj Hs.
  rewrite length_insert in Hj.
  pose proof (below_ge _ _ Hb) as Hge.
  insert_cases; subst;
    first [lia | apply Hc; lia | apply Hexit; lia | apply He; lia].
Qed.

(** One more round of the loop: the parent moves into the hole. *)
Lemma _siftdown_step s A pos newitem :
  down_inv s A pos newitem ->
  s < pos ->
  (newitem < A !!! ((pos - 1) / 2)%nat)%Z ->
  down_inv s (<[pos := A !!! ((pos - 1) / 2)%nat]> A) ((pos - 1) / 2) newitem.
Proof.
  intros [Hpos Hb He Hc Hg] Hlt Hcmp.
  pose proof (below_parent s pos Hb Hlt) as Hbp.
  pose proof (below_ge _ _ Hbp) as Hge.
  assert (Hpp : (pos - 1) / 2 < pos) by lia.
  constructor.
  - rewrite length_insert. lia.
  - done.
  - intros j Hj Hs Hne. insert_cases; subst;
      first [lia | apply Hg; lia | apply He; lia].
  - intros j Hj Hp.
    rewrite length_insert in Hj.
    destruct (decide (j = pos)) as [->|Hjp]; insert_cases.
    assert (A !!! ((j - 1) / 2)%nat <= A !!! j)%Z by (apply He; lia).
    rewrite Hp in *. lia.
  - intros Hspp j Hj Hp.
    rewrite length_insert in Hj.
    assert (Hgp : (A !!! (((pos - 1) / 2 - 1) / 2)%nat <= A !!! ((pos - 1) / 2)%nat)%Z).
    { apply He; [lia | | lia].
      pose proof (below_ge _ _ (below_parent s _ Hbp Hspp)). lia. }
    destruct (decide (j = pos)) as [->|Hjp]; insert_cases.
    assert (A !!! ((j - 1) / 2)%nat <= A !!! j)%Z by (apply He; lia).
    rewrite Hp in *. lia.
Qed.

Lemma _siftdown_loop_heap fuel s A pos newitem :
  pos <= fuel ->
  down_inv s A pos newitem ->
  heap_from s (heapq._siftdown_loop fuel A s pos newitem).
Proof.
  revert A pos. induction fuel as [|fuel IH]; intros A pos Hfuel Hinv;
    cbn [heapq._siftdown_loop].
  - apply _siftdown_exit; [done|]. pose proof (down_pos _ _ _ _ Hinv). lia.
  - destruct (s <? pos) eqn:Hlt;
      [apply Nat.ltb_lt in Hlt | apply Nat.ltb_ge in Hlt].
    + destruct (newitem <? A !!! ((pos - 1) / 2)%nat)%Z eqn:Hcmp;
        [apply Z.ltb_lt in Hcmp | apply Z.ltb_ge in Hcmp].
      * apply IH; [lia|]. by apply _siftdown_step.
      * by apply _siftdown_exit.
    + apply _siftdown_exit; [done|lia].
Qed.

Lemma _siftup_step s A pos :
  up_inv s A pos ->
  2 * pos + 1 < length A ->
  up_inv s (<[pos := A !!! child_of A pos]> A) (child_of A pos).
Proof.
  intros [Hpos Hb He Hg] Hc.
  destruct (child_of_cases A pos Hc) as (Hcc & Hclt & Hleft & Hright).
  pose proof (below_ge _ _ Hb) as Hge.
  set (c := child_of A pos) in *.
  constructor.
  - rewrite length_insert. lia.
  - destruct Hcc as [-> | ->]; by constructor.
  - intros j Hj Hs Hjc Hpc. rewrite length_insert in Hj.
    destruct (decide (j = pos)) as [->|Hjp].
    + insert_cases. apply Hg; lia.
    + destruct (decide ((j - 1) / 2 = pos)) as [Hp|Hp].
      * rewrite Hp. insert_cases.
        assert (Hj' : j = 2 * pos + 1 \/ j = 2 * pos + 2) by lia.
        destruct Hj' as [-> | ->]; [done | apply Hright; lia].
      * insert_cases. by apply He.
  - intros Hsc j Hj Hp. rewrite length_insert in Hj.
    replace ((c - 1) / 2) with pos by lia.
    insert_cases. rewrite <- Hp. apply He; lia.
Qed.

Lemma _siftup_loop_heap fuel s A pos :
  length A <= fuel + pos ->
  up_inv s A pos ->
  let r := heapq._siftup_loop fuel A pos in
  up_inv s r.1 r.2 /\ length r.1 <= 2 * r.2 + 1.
Proof.
  revert A pos. induction fuel as [|fuel IH]; intros A pos Hfuel Hinv.
  - pose proof (up_pos _ _ _ Hinv). cbn in *. lia.
  - cbv zeta. rewrite _siftup_loop_unfold.
    destruct (2 * pos + 1 <? length A) eqn:Hc;
      [apply Nat.ltb_lt in Hc | apply Nat.ltb_ge in Hc].
    + destruct (child_of_cases A pos Hc) as (Hcc & _).
      apply IH; [rewrite length_insert; lia | by apply _siftup_step].
    + cbn [fst snd]. split; [done|lia].
Qed.

Lemma _siftup_heap s heap :
  s < length heap -> heap_from (S s) heap -> heap_from s (heapq._siftup heap s).
Proof.
  intros Hs Hheap. unfold heapq._siftup.
  assert (Hinit : up_inv s heap s).
  { constructor; [done | constructor | | lia].
    intros j Hj Hsj _ Hne. apply Hheap; lia. }
  destruct (_siftup_loop_heap (length heap) s heap s) as ([Hpos Hb He Hg] & Hleaf);
    [lia | done |].
  destruct (heapq._siftup_loop (length heap) heap s) as [A pos]. cbn [fst snd] in *.
  unfold heapq._siftdown.
  rewrite list_lookup_total_insert_eq by done.
  apply _siftdown_loop_heap; [done|].
  constructor.
  - by rewrite length_insert.
  - done.
  - intros j Hj Hsj Hne. insert_cases. apply He; lia.
  - intros j Hj Hp. rewrite length_insert in Hj. lia.
  - intros _ j Hj Hp. rewrite length_insert in Hj. lia.
Qed.

Lemma heappush_heap heap item :
  heapq.is_heap heap -> heapq.is_heap (heapq.heappush heap item).
Proof.
  intros Hheap. apply heap_from_0. unfold heapq.heappush, heapq._siftdown.
  rewrite length_app. cbn [length].
  replace (length heap + 1 - 1) with (length heap) by lia.
  apply _siftdown_loop_heap; [done|].
  constructor.
  - rewrite length_app. cbn. lia.
  - apply below_zero.
  - intros j Hj _ Hne. rewrite length_app in Hj. cbn in Hj.
    rewrite !lookup_total_app_l by lia. apply Hheap. lia.
  - intros j Hj Hp. rewrite length_app in Hj. cbn in Hj. lia.
  - intros _ j Hj Hp. rewrite length_app in Hj. cbn in Hj. lia.
Qed.

(** In a heap the item at index 0 is a smallest one. *)
Lemma heap_root_min heap :
  heapq.is_heap heap -> forall j, j < length heap -> (heap !!! 0%nat <= heap !!! j)%Z.
Proof.
  intros Hheap j. induction j as [j IH] using lt_wf_ind. intros Hj.
  destruct (decide (j = 0)) as [->|Hne]; [lia|].
  assert (heap !!! 0%nat <= heap !!! ((j - 1) / 2)%nat)%Z by (apply IH; lia).
  assert (heap !!! ((j - 1) / 2)%nat <= heap !!! j)%Z by (apply Hheap; lia).
  lia.
Qed.

Lemma heap_root_min_Forall x heap :
  heapq.is_heap (x :: heap) -> Forall (fun y => (x <= y)%Z) (x :: heap).
Proof.
  intros Hheap. apply Forall_lookup. intros j y Hy.
  pose proof (lookup_lt_Some _ _ _ Hy) as Hj.
  pose proof (heap_root_min _ Hheap j Hj) as Hmin.
  by rewrite (list_lookup_total_correct _ _ _ Hy) in Hmin.
Qed.

Lemma is_heap_prefix l x : heapq.is_heap (l ++ [x]) -> heapq.is_heap l.
Proof.
  intros Hheap j Hj.
  specialize (Hheap j). rewrite length_app in Hheap. cbn [length] in Hheap.
  rewrite !lookup_total_app_l in Hheap by lia. apply Hheap. lia.
Qed.

Lemma heappop_heap heap t h :
  heapq.is_heap heap -> heapq.heappop heap = Some (t, h) ->
  heapq.is_heap h /\ Forall (fun y => (t <= y)%Z) h.
Proof.
  intros Hheap Hpop.
  assert (Hmin : Forall (fun y => (t <= y)%Z) h).
  { pose proof (heappop_head _ _ _ Hpop) as Hhd.
    pose proof (heappop_perm _ _ _ Hpop) as Hperm.
    destruct heap as [|x heap]; [done|]. cbn in Hhd. injection Hhd as ->.
    apply heap_root_min_Forall in Hheap. rewrite Hperm in Hheap.
    by apply Forall_cons in Hheap as [_ ?]. }
  split; [|done].
  unfold heapq.heappop in Hpop.
  destruct (last heap) as [lastelt|] eqn:Hlast; [|done].
  apply last_Some in Hlast as [l' ->]. rewrite removelast_last in Hpop.
  apply is_heap_prefix in Hheap.
  destruct l' as [|r rest]; injection Hpop as <- <-.
  - intros j Hj. cbn in Hj. lia.
  - apply heap_from_0. apply _siftup_heap; [cbn; lia|].
    change (lastelt :: rest) with (<[0 := lastelt]> (r :: rest)).
    intros j Hj Hs. rewrite length_insert in Hj.
    insert_cases. apply Hheap. lia.
Qed.

Lemma heapify_loop_heap i x :
  i <= length x -> heap_from i x -> heapq.is_heap (heapq.heapify_loop i x).
Proof.
  revert x. induction i as [|i IH]; intros x Hi Hheap; cbn [heapq.heapify_loop].
  - by apply heap_from_0.
  - apply IH; [rewrite _siftup_length; lia|].
    apply _siftup_heap; [lia|done].
Qed.

Lemma heapify_heap x : heapq.is_heap (heapq.heapify x).
Proof.
  apply heapify_loop_heap; [lia|].
  intros j Hj Hs. lia.
Qed.

Lemma is_heap_nil : heapq.is_heap [].
Proof. intros j Hj. cbn in Hj. lia. Qed.

End heapq_invariant.

(** The iteration counters of the two loops are never the reason the loops
    stop: any larger counter gives the same result. *)
Lemma _siftdown_loop_fuel (fuel1 fuel2 : nat) heap startpos pos newitem :
  (pos <= fuel1)%nat -> (pos <= fuel2)%nat ->
  heapq._siftdown_loop fuel1 heap startpos pos newitem =
  heapq._siftdown_loop fuel2 heap startpos pos newitem.
Proof.
  revert fuel2 heap pos.
  induction fuel1 as [|fuel1 IH]; intros fuel2 heap pos H1 H2.
  - assert (pos = 0%nat) as -> by lia.
    destruct fuel2; cbn [heapq._siftdown_loop]; [done|].
    by destruct startpos.
  - destruct fuel2 as [|fuel2].
    + assert (pos = 0%nat) as -> by lia. cbn [heapq._siftdown_loop].
      by destruct startpos.
    + cbn [heapq._siftdown_loop].
      destruct (startpos <? pos)%nat eqn:Hlt; [|done].
      apply Nat.ltb_lt in Hlt.
      destruct (newitem <? _); [|done].
      apply IH; lia.
Qed.

Lemma _siftup_loop_fuel (fuel1 fuel2 : nat) heap pos :
  (pos < length heap)%nat ->
  (length heap <= fuel1 + pos)%nat -> (length heap <= fuel2 + pos)%nat ->
  heapq._siftup_loop fuel1 heap pos = heapq._siftup_loop fuel2 heap pos.
Proof.
  revert fuel2 heap pos.
  induction fuel1 as [|fuel1 IH]; intros fuel2 heap pos Hpos H1 H2; [lia|].
  destruct fuel2 as [|fuel2]; [lia|].
  rewrite !_siftup_loop_unfold.
  destruct (2 * pos + 1 <? length heap)%nat eqn:Hc; [|done].
  apply Nat.ltb_lt in Hc.
  destruct (child_of_cases heap pos Hc) as (Hcc & Hclt & _).
  apply IH; rewrite length_insert; lia.
Qed.

(** ** The queues of a reachable session are heaps *)

Lemma add_request_heaps e F : car_heaps e -> car_heaps (add_request e F).
Proof.
  intros [Hu Hd]. unfold add_request, car_heaps.
  destruct (F =? current e); [done|].
  destruct (F >? current e); cbn [up down set_up set_down].
  - split; [|done]. by apply heappush_heap.
  - split; [done|]. by apply heappush_heap.
Qed.

Lemma move_to_next_heaps e : car_heaps e -> car_heaps (fst (move_to_next e)).
Proof.
  intros [Hu Hd]. unfold car_heaps.
  destruct (move_to_next_cases e)
    as [(_ & _ & _ & -> & -> & _)
       |[(t & h & d & Hp & ->)|(t & h & d & Hp & ->)]].
  - split; apply is_heap_nil.
  - cbn [fst up down]. split; [|done]. by destruct (heappop_heap _ _ _ Hu Hp).
  - cbn [fst up down]. split; [done|]. by destruct (heappop_heap _ _ _ Hd Hp).
Qed.

Lemma remove_heapify_heap v heap b :
  heapq.is_heap heap -> heapq.is_heap (remove_heapify v heap b).1.
Proof.
  intros Hh. unfold remove_heapify.
  destruct (heapq.list_remove v heap); cbn [fst]; [apply heapify_heap | done].
Qed.

Lemma undo_in_elevator_heaps v e b :
  car_heaps e -> car_heaps (undo_in_elevator v e b).1.
Proof.
  intros [Hu Hd]. unfold car_heaps.
  destruct (undo_in_elevator_fields v e b) as (_ & _ & _ & _ & -> & -> & _).
  split; by apply remove_heapify_heap.
Qed.

Lemma submit_request_heaps s f :
  heaps_valid s -> heaps_valid (fst (submit_request s f)).
Proof.
  intros [HA HB]. unfold submit_request.
  destruct ((f <? MIN_FLOOR) || (f >? MAX_FLOOR)); [done|].
  destruct (RequestQueue.pop (RequestQueue.push (req_q s) f)) as [[x|] q']; [|done].
  cbv zeta.
  destruct (assign_request_to_elevator x (elevA s) (elevB s));
    cbn [fst get_car set_car elevA elevB]; split; try done;
    by apply add_request_heaps.
Qed.

Lemma undo_last_heaps s : heaps_valid s -> heaps_valid (fst (undo_last s)).
Proof.
  intros [HA HB]. unfold undo_last.
  destruct (Stack.pop (undo_stack s)) as [[[typ value]|] st]; [|done].
  destruct (String.eqb typ "request"); [|done].
  destruct (match heapq.list_remove value (req_q s) with
            | Some q' => (q', true)
            | None => (req_q s, false)
            end) as [q r0].
  pose proof (undo_in_elevator_heaps value (elevA s) r0 HA) as HA'.
  destruct (undo_in_elevator value (elevA s) r0) as [a ra].
  pose proof (undo_in_elevator_heaps value (elevB s) ra HB) as HB'.
  destruct (undo_in_elevator value (elevB s) ra) as [b rb].
  done.
Qed.

Lemma step_heaps s : heaps_valid s -> heaps_valid (fst (step s)).
Proof.
  intros [HA HB]. unfold step.
  pose proof (move_to_next_heaps (elevA s) HA) as HA'.
  destruct (move_to_next (elevA s)) as [a ra].
  pose proof (move_to_next_heaps (elevB s) HB) as HB'.
  destruct (move_to_next (elevB s)) as [b rb].
  done.
Qed.

Lemma reachable_heaps_valid (s : Sim) : reachable s -> heaps_valid s.
Proof.
  intros [cmds Hr].
  apply (run_preserves heaps_valid
           (exec_preserves _ submit_request_heaps undo_last_heaps step_heaps)
           cmds initial s); [|done].
  split; split; apply is_heap_nil.
Qed.

(** ** Pending floors stay on their side of the car *)

Lemma add_request_ordered e F : car_ordered e -> car_ordered (add_request e F).
Proof.
  intros (Hh & Hu & Hd). split; [by apply add_request_heaps|].
  unfold add_request, UpPQ.to_list, DownPQ.to_list in *.
  destruct (F =? current e) eqn:Heq; [done|].
  destruct (F >? current e) eqn:Hgt; cbn [up down current set_up set_down].
  - apply Z.gtb_lt in Hgt. split; [|done].
    unfold UpPQ.push. rewrite heappush_perm. constructor; [lia|done].
  - rewrite Z.gtb_ltb in Hgt. apply Z.ltb_ge in Hgt. split; [done|].
    unfold DownPQ.push. rewrite heappush_perm. cbn.
    rewrite Z.opp_involutive. constructor; [lia|done].
Qed.

Lemma move_to_next_ordered e : car_ordered e -> car_ordered (fst (move_to_next e)).
Proof.
  intros (Hh & Hu & Hd). split; [by apply move_to_next_heaps|].
  destruct Hh as [Hhu Hhd]. unfold UpPQ.to_list, DownPQ.to_list in *.
  destruct (move_to_next_cases e)
    as [(_ & _ & _ & -> & -> & _)
       |[(t & h & d & Hp & ->)|(t & h & d & Hp & ->)]].
  - split; constructor.
  - cbn [fst up down current].
    destruct (heappop_heap _ _ _ Hhu Hp) as (_ & Hmin).
    rewrite (heappop_perm _ _ _ Hp) in Hu. apply Forall_cons in Hu as [Ht _].
    split; [done|]. eapply Forall_impl; [exact Hd|]. cbn. intros y Hy. lia.
  - cbn [fst up down current].
    destruct (heappop_heap _ _ _ Hhd Hp) as (_ & Hmin).
    rewrite (heappop_perm _ _ _ Hp) in Hd. cbn in Hd.
    apply Forall_cons in Hd as [Ht _].
    split.
    + eapply Forall_impl; [exact Hu|]. cbn. intros y Hy. lia.
    + apply Forall_fmap. eapply Forall_impl; [exact Hmin|]. cbn. intros y Hy. lia.
Qed.

Lemma undo_in_elevator_ordered v e b :
  car_ordered e -> car_ordered (undo_in_elevator v e b).1.
Proof.
  intros (Hh & Hu & Hd). split; [by apply undo_in_elevator_heaps|].
  unfold UpPQ.to_list, DownPQ.to_list in *.
  destruct (undo_in_elevator_fields v e b) as (_ & -> & _ & _ & -> & -> & _).
  split.
  - rewrite remove_heapify_perm. by apply remove_one_Forall.
  - rewrite remove_heapify_perm. unfold remove_one.
    destruct (heapq.list_remove (- v) (down e)) as [l'|] eqn:Hr; [|done].
    apply list_remove_perm in Hr. rewrite Hr in Hd. cbn in Hd.
    by apply Forall_cons in Hd as [_ Hd].
Qed.

Lemma submit_request_ordered s f :
  session_ordered s -> session_ordered (fst (submit_request s f)).
Proof.
  intros [HA HB]. unfold submit_request.
  destruct ((f <? MIN_FLOOR) || (f >? MAX_FLOOR)); [done|].
  destruct (RequestQueue.pop (RequestQueue.push (req_q s) f)) as [[x|] q']; [|done].
  cbv zeta.
  destruct (assign_request_to_elevator x (elevA s) (elevB s));
    cbn [fst get_car set_car elevA elevB]; split; try done;
    by apply add_request_ordered.
Qed.

Lemma undo_last_ordered s : session_ordered s -> session_ordered (fst (undo_last s)).
Proof.
  intros [HA HB]. unfold undo_last.
  destruct (Stack.pop (undo_stack s)) as [[[typ value]|] st]; [|done].
  destruct (String.eqb typ "request"); [|done].
  destruct (match heapq.list_remove value (req_q s) with
            | Some q' => (q', true)
            | None => (req_q s, false)
            end) as [q r0].
  pose proof (undo_in_elevator_ordered value (elevA s) r0 HA) as HA'.
  destruct (undo_in_elevator value (elevA s) r0) as [a ra].
  pose proof (undo_in_elevator_ordered value (elevB s) ra HB) as HB'.
  destruct (undo_in_elevator value (elevB s) ra) as [b rb].
  done.
Qed.

Lemma step_ordered s : session_ordered s -> session_ordered (fst (step s)).
Proof.
  intros [HA HB]. unfold step.
  pose proof (move_to_next_ordered (elevA s) HA) as HA'.
  destruct (move_to_next (elevA s)) as [a ra].
  pose proof (move_to_next_ordered (elevB s) HB) as HB'.
  destruct (move_to_next (elevB s)) as [b rb].
  done.
Qed.

Lemma reachable_ordered (s : Sim) : reachable s -> session_ordered s.
Proof.
  intros [cmds Hr].
  apply (run_preserves session_ordered
           (exec_preserves _ submit_request_ordered undo_last_ordered step_ordered)
           cmds initial s); [|done].
  split; (split; [split; apply is_heap_nil | split; constructor]).
Qed.

(** ** undo right after a request *)

(** C2, as stated, fails: a request for the floor a car stands on is logged
    in the history at once, and the undo that follows finds nothing to remove
    and leaves the history entry in place. *)
Lemma undo_cannot_restore_served_request :
  run initial [] = Some initial
  /\ MIN_FLOOR <= 0 <= MAX_FLOOR
  /\ snd (undo_last (fst (submit_request initial 0))) = NotFound 0
  /\ history (elevA (fst (undo_last (fst (submit_request initial 0))))) = [0]
  /\ history (elevA initial) = []
  /\ fst (undo_last (fst (submit_request initial 0))) <> initial.
Proof.
  split; [reflexivity|].
  split; [unfold MIN_FLOOR, MAX_FLOOR; lia|].
  split; [vm_compute; reflexivity|].
  split; [vm_compute; reflexivity|].
  split; [reflexivity|].
  intros H. apply (f_equal (fun s => history (elevA s))) in H.
  vm_compute in H. discriminate.
Qed.

(** The heap list itself need not come back either, although the queue holds
    the same floors: after requests 1, 5, 3 the Up-queue of car A is laid out
    as [1; 5; 3], and request 2 followed by undo leaves [1; 3; 5]. *)
Lemma undo_may_reorder_heap :
  let s := Nat.iter 1 (fun s => fst (submit_request s 3))
             (fst (submit_request (fst (submit_request initial 1)) 5)) in
  up (elevA s) = [1; 5; 3]
  /\ up (elevA (fst (undo_last (fst (submit_request s 2))))) = [1; 3; 5].
Proof. split; vm_compute; reflexivity. Qed.

(** Nor does undo tell the new request from an older one for the same
    floor: with 5 pending in car A, a request for 5 that goes to car B and is
    undone at once takes the older entry of car A along. *)
Lemma undo_after_submit_takes_older_request :
  let s := mkSim (mkElevator "A" (-3) Up [5] [] [-3]) (new_elevator "B") []
                 [("request"%string, -3); ("request"%string, 5)] in
  run initial [CmdRequest (-3); CmdRequest 5; CmdStep] = Some s
  /\ fst (submit_request s 5) = two_pending_fives
  /\ up (elevA (fst (undo_last (fst (submit_request s 5))))) = []
  /\ up (elevA s) = [5].
Proof.
  split; [vm_compute; reflexivity|].
  split; [vm_compute; reflexivity|].
  split; [vm_compute; reflexivity|reflexivity].
Qed.

Lemma remove_one_of_pushed (F : Z) (heap pushed : list Z) :
  pushed ≡ₚ F :: heap -> remove_one F pushed ≡ₚ heap.
Proof.
  intros Hp. unfold remove_one.
  destruct (heapq.list_remove F pushed) as [l'|] eqn:Hr.
  - apply list_remove_perm in Hr. rewrite Hr in Hp.
    by apply Permutation_cons_inv in Hp.
  - apply list_remove_None in Hr. exfalso. apply Hr. rewrite Hp.
    apply list_elem_of_here.
Qed.

Lemma remove_heapify_absent (v : Z) (heap : list Z) (b : bool) :
  v ∉ heap -> (remove_heapify v heap b).1 = heap.
Proof.
  intros H. apply list_remove_None in H. unfold remove_heapify. by rewrite H.
Qed.

(** Undoing in a car that does not hold the floor changes nothing. *)
Lemma undo_in_elevator_absent (F : Z) (e : Elevator) (b : bool) :
  F ∉ UpPQ.to_list (up e) -> F ∉ DownPQ.to_list (down e) ->
  same_car e (undo_in_elevator F e b).1.
Proof.
  unfold UpPQ.to_list, DownPQ.to_list. rewrite elem_of_map_opp. intros Hu Hd.
  destruct (undo_in_elevator_fields F e b) as (Hn & Hc & Hdir & Hh & Hup & Hdn & _).
  unfold same_car. rewrite Hn, Hc, Hdir, Hh, Hup, Hdn.
  rewrite !remove_heapify_absent by done. done.
Qed.

(** Undoing in the car that has just been handed the floor takes it out
    again, provided the floor is not in the car's other queue. *)
Lemma undo_in_elevator_after_add (F : Z) (e : Elevator) (b : bool) :
  F <> current e ->
  ~ (current e < F /\ F ∈ DownPQ.to_list (down e)) ->
  ~ (F < current e /\ F ∈ UpPQ.to_list (up e)) ->
  same_car e (undo_in_elevator F (add_request e F) b).1
  /\ (undo_in_elevator F (add_request e F) b).2 = true.
Proof.
  unfold UpPQ.to_list, DownPQ.to_list. rewrite elem_of_map_opp.
  intros Hne Hnd Hnu.
  destruct (undo_in_elevator_fields F (add_request e F) b)
    as (Hn & Hc & Hdir & Hh & Hup & Hdn & Hflag).
  unfold same_car. rewrite Hn, Hc, Hdir, Hh, Hup, Hdn, Hflag.
  unfold add_request. apply Z.eqb_neq in Hne. rewrite Hne.
  destruct (F >? current e) eqn:Hgt.
  - apply Z.gtb_lt in Hgt. cbn [name current direction history up down set_up].
    assert (Hd : - F ∉ down e) by tauto.
    rewrite (remove_heapify_absent (- F) (down e)) by done.
    rewrite remove_heapify_perm.
    rewrite (remove_one_of_pushed F (up e)) by apply heappush_perm.
    split; [done|].
    rewrite (bool_decide_eq_true_2 (F ∈ UpPQ.push (up e) F)).
    + by rewrite orb_true_r.
    + unfold UpPQ.push. rewrite heappush_perm. apply list_elem_of_here.
  - rewrite Z.gtb_ltb in Hgt. apply Z.ltb_ge in Hgt. apply Z.eqb_neq in Hne.
    cbn [name current direction history up down set_down].
    assert (Hu : F ∉ up e) by (intros ?; apply Hnu; split; [lia|done]).
    rewrite (remove_heapify_absent F (up e)) by done.
    rewrite remove_heapify_perm.
    rewrite (remove_one_of_pushed (- F) (down e)) by apply heappush_perm.
    split; [done|].
    rewrite (bool_decide_eq_true_2 (- F ∈ DownPQ.push (down e) F)); [done|].
    unfold DownPQ.push. rewrite heappush_perm. apply list_elem_of_here.
Qed.

Lemma add_request_holds (F : Z) (e : Elevator) :
  F <> current e ->
  F ∈ UpPQ.to_list (up (add_request e F))
  \/ F ∈ DownPQ.to_list (down (add_request e F)).
Proof.
  intros Hne. unfold add_request. apply Z.eqb_neq in Hne. rewrite Hne.
  destruct (F >? current e); [left | right]; cbn.
  - unfold UpPQ.to_list, UpPQ.push. rewrite heappush_perm. apply list_elem_of_here.
  - unfold DownPQ.to_list, DownPQ.push. rewrite elem_of_map_opp, heappush_perm.
    apply list_elem_of_here.
Qed.

Lemma held_intro (F : Z) (s : Sim) (c : list Z) :
  In c (containers s) -> F ∈ c -> held F s = true.
Proof.
  intros Hin HF. unfold held. apply existsb_exists. exists c.
  split; [done|]. by apply bool_decide_eq_true_2.
Qed.

(** C2 (amended). In a reachable session, if the in-range floor [F] is not
    the floor the assigned car stands on and does not already wait in a queue
    of the other car, then [undo_last] right after [submit_request F] reports
    the removal of [F] and brings back the incoming FIFO, the undo ledger and
    the position, direction and history of both cars exactly, and every queue
    holds the same floors as before the request. *)
Theorem undo_after_submit_restores (s : Sim) (F : Z) :
  reachable s ->
  MIN_FLOOR <= F <= MAX_FLOOR ->
  let c := assign_request_to_elevator F (elevA s) (elevB s) in
  F <> current (get_car s c) ->
  ~ pending_in_other_car F s c ->
  let r := undo_last (fst (submit_request s F)) in
  snd r = Removed F /\ same_session s (fst r).
Proof.
  intros Hreach HF c Hcur Hfree. cbv zeta.
  pose proof (reachable_req_q_empty s Hreach) as Hq.
  rewrite (submit_request_in_range s F HF Hq). cbn [fst]. fold c.
  unfold pending_in_other_car in Hfree.
  assert (Hown : ~ (current (get_car s c) < F
                    /\ F ∈ DownPQ.to_list (down (get_car s c)))
                 /\ ~ (F < current (get_car s c)
                       /\ F ∈ UpPQ.to_list (up (get_car s c)))).
  { assert (Hord : car_ordered (get_car s c)).
    { destruct (reachable_ordered s Hreach) as [HA HB]. by destruct c. }
    destruct Hord as (_ & Hu & Hd).
    rewrite Forall_forall in Hu, Hd.
    split; intros [Hlt Hin].
    - apply Hd in Hin. lia.
    - apply Hu in Hin. lia. }
  destruct Hown as [Hown1 Hown2].
  set (s1 := set_car _ c _).
  assert (Hst : undo_stack s1 = undo_stack s ++ [("request"%string, F)]).
  { subst s1. by destruct c. }
  rewrite (undo_last_request s1 (undo_stack s) F Hst). cbn [fst snd].
  assert (Hq1 : req_q s1 = []) by (subst s1; by destruct c).
  assert (Hheld : held F s1 = true).
  { destruct (add_request_holds F (get_car s c) Hcur) as [Hin | Hin].
    - apply (held_intro F s1 (UpPQ.to_list (up (get_car s1 c)))).
      + unfold containers. destruct c; cbn; tauto.
      + subst s1. by destruct c.
    - apply (held_intro F s1 (DownPQ.to_list (down (get_car s1 c)))).
      + unfold containers. destruct c; cbn; tauto.
      + subst s1. by destruct c. }
  rewrite Hheld, Hq1. split; [done|]. cbn [remove_one heapq.list_remove].
  rewrite (bool_decide_eq_false_2 (F ∈ [])) by apply not_elem_of_nil.
  unfold same_session. cbn [elevA elevB req_q undo_stack].
  clear Hst Hq1 Hheld.
  destruct c eqn:Hc; subst s1; cbn [set_car get_car other_car elevA elevB] in *.
  - destruct (undo_in_elevator_after_add F (elevA s) false) as (HA & HfA);
      [done | tauto | tauto |].
    split; [done|]. split; [|done].
    apply undo_in_elevator_absent; tauto.
  - destruct (undo_in_elevator_after_add F (elevB s)
                (undo_in_elevator F (elevA s) false).2) as (HB & HfB);
      [done | tauto | tauto |].
    split; [|split; [done|done]].
    apply undo_in_elevator_absent; tauto.
Qed.

Lemma undo_after_submit_restores_witness :
  snd (undo_last (fst (submit_request two_pending_fives 7))) = Removed 7
  /\ same_session two_pending_fives
       (fst (undo_last (fst (submit_request two_pending_fives 7)))).
Proof.
  apply (undo_after_submit_restores two_pending_fives 7).
  - exists [CmdRequest (-3); CmdRequest 5; CmdStep; CmdRequest 5].
    vm_compute. reflexivity.
  - unfold MIN_FLOOR, MAX_FLOOR. lia.
  - vm_compute. discriminate.
  - unfold pending_in_other_car. vm_compute.
    intros [H | H].
    + apply list_elem_of_In in H. cbn in H. intuition discriminate.
    + apply list_elem_of_In in H. cbn in H. intuition discriminate.
Defined.

(** ** Sweeps: the order in which a car serves one queue *)

Lemma add_request_up_bounded lo e F :
  up_bounded lo e -> up_bounded lo (add_request e F).
Proof.
  intros (Hheap & Hall & Hcur). unfold add_request, up_bounded, UpPQ.to_list in *.
  destruct (F =? current e); [done|].
  destruct (F >? current e) eqn:Hgt; [|done].
  apply Z.gtb_lt in Hgt. cbn [up current set_up]. unfold UpPQ.push.
  split; [by apply heappush_heap|]. split; [|done].
  rewrite heappush_perm. constructor; [lia|done].
Qed.

Lemma add_request_down_bounded hi e F :
  down_bounded hi e -> down_bounded hi (add_request e F).
Proof.
  intros (Hheap & Hall & Hcur). unfold add_request, down_bounded, DownPQ.to_list in *.
  destruct (F =? current e) eqn:Heq; [done|]. apply Z.eqb_neq in Heq.
  destruct (F >? current e) eqn:Hgt; [done|].
  rewrite Z.gtb_ltb in Hgt. apply Z.ltb_ge in Hgt.
  cbn [down current set_down]. unfold DownPQ.push.
  split; [by apply heappush_heap|]. split; [|done].
  rewrite heappush_perm. cbn. rewrite Z.opp_involutive. constructor; [lia|done].
Qed.


Lemma move_to_next_sweeping_up lo e :
  sweeping_up e = true -> up_bounded lo e ->
  exists e' t, move_to_next e = (e', Some t) /\ lo <= t /\ up_bounded t e'.
Proof.
  unfold sweeping_up, up_bounded, UpPQ.to_list. intros Hg (Hheap & Hall & Hcur).
  apply andb_true_iff in Hg as [Hd Hne].
  assert (Hdir : direction e = Up) by (by destruct (direction e)).
  assert (Hup : up e <> []).
  { intros Hn. rewrite Hn in Hne. done. }
  destruct (heappop_nonempty _ Hup) as (t & h & Hpop).
  unfold move_to_next, serve. rewrite Hdir.
  rewrite (serve_up_pops_up e t h Hup Hpop).
  destruct (heappop_heap _ _ _ Hheap Hpop) as (Hh & Hmin).
  pose proof (heappop_perm _ _ _ Hpop) as Hperm. rewrite Hperm in Hall.
  apply Forall_cons in Hall as [Hlo _].
  eexists _, t. split; [done|]. split; [done|].
  cbn [up current]. split; [done|]. split; [done|lia].
Qed.

Lemma move_to_next_sweeping_down hi e :
  sweeping_down e = true -> down_bounded hi e ->
  exists e' t, move_to_next e = (e', Some t) /\ t <= hi /\ down_bounded t e'.
Proof.
  unfold sweeping_down, down_bounded, DownPQ.to_list. intros Hg (Hheap & Hall & Hcur).
  apply andb_true_iff in Hg as [Hd Hne].
  assert (Hdir : direction e = Down) by (by destruct (direction e)).
  assert (Hdn : down e <> []).
  { intros Hn. rewrite Hn in Hne. done. }
  destruct (heappop_nonempty _ Hdn) as (t & h & Hpop).
  unfold move_to_next, serve. rewrite Hdir.
  rewrite (serve_down_pops_down e t h Hdn Hpop).
  destruct (heappop_heap _ _ _ Hheap Hpop) as (Hh & Hmin).
  pose proof (heappop_perm _ _ _ Hpop) as Hperm. rewrite Hperm in Hall.
  cbn in Hall. apply Forall_cons in Hall as [Hhi _].
  eexists _, (- t). split; [done|]. split; [done|].
  cbn [down current]. split; [done|]. split; [|lia].
  apply Forall_fmap. eapply Forall_impl; [exact Hmin|]. cbn. intros y Hy. lia.
Qed.

Lemma sweep_up_sorted ops : forall lo e served,
  up_bounded lo e -> sweep sweeping_up e ops = Some served ->
  Sorted Z.le served /\ Forall (fun y => lo <= y) served.
Proof.
  induction ops as [|op ops IH]; intros lo e served Hb; cbn [sweep].
  - intros [= <-]. split; constructor.
  - destruct op as [F|].
    + apply IH. by apply add_request_up_bounded.
    + destruct (sweeping_up e) eqn:Hg; [|done].
      destruct (move_to_next_sweeping_up lo e Hg Hb) as (e' & t & -> & Hlo & Hb').
      destruct (sweep sweeping_up e' ops) as [rest|] eqn:Hrest; [|done].
      cbn [option_map]. intros [= <-].
      destruct (IH t e' rest Hb' Hrest) as (Hsorted & Hall).
      split.
      * constructor; [done|]. destruct Hall; constructor; done.
      * constructor; [done|]. eapply Forall_impl; [exact Hall|].
        cbn. intros y Hy. lia.
Qed.

Lemma sweep_down_sorted ops : forall hi e served,
  down_bounded hi e -> sweep sweeping_down e ops = Some served ->
  Sorted Z.ge served /\ Forall (fun y => y <= hi) served.
Proof.
  induction ops as [|op ops IH]; intros hi e served Hb; cbn [sweep].
  - intros [= <-]. split; constructor.
  - destruct op as [F|].
    + apply IH. by apply add_request_down_bounded.
    + destruct (sweeping_down e) eqn:Hg; [|done].
      destruct (move_to_next_sweeping_down hi e Hg Hb) as (e' & t & -> & Hhi & Hb').
      destruct (sweep sweeping_down e' ops) as [rest|] eqn:Hrest; [|done].
      cbn [option_map]. intros [= <-].
      destruct (IH t e' rest Hb' Hrest) as (Hsorted & Hall).
      split.
      * constructor; [done|]. destruct Hall; constructor; lia.
      * constructor; [done|]. eapply Forall_impl; [exact Hall|].
        cbn. intros y Hy. lia.
Qed.

Lemma lower_bound_exists (l : list Z) (c : Z) :
  exists lo, Forall (fun y => lo <= y) l /\ lo <= c.
Proof.
  induction l as [|x l (lo & Hall & Hc)].
  - exists c. split; [constructor | lia].
  - exists (Z.min lo x). split; [|lia].
    constructor; [lia|]. eapply Forall_impl; [exact Hall|]. cbn. intros y Hy. lia.
Qed.

Lemma upper_bound_exists (l : list Z) (c : Z) :
  exists hi, Forall (fun y => y <= hi) l /\ c <= hi.
Proof.
  induction l as [|x l (hi & Hall & Hc)].
  - exists c. split; [constructor | lia].
  - exists (Z.max hi x). split; [|lia].
    constructor; [lia|]. eapply Forall_impl; [exact Hall|]. cbn. intros y Hy. lia.
Qed.

(** C9. Take a car whose queues are heaps (as they are in every reachable
    session, see [reachable_heaps_valid]) and any run of [move_to_next] calls,
    with [add_request] calls in between, in which the car is moving up and
    serves from its Up-queue at every call: the floors served never
    decrease.  Symmetrically, while it is moving down and serves from the
    Down-queue, the floors served never increase. *)
Theorem sweep_order (e : Elevator) (ops : list CarOp) (served : list Z) :
  (heapq.is_heap (up e) -> sweep sweeping_up e ops = Some served ->
     Sorted Z.le served)
  /\ (heapq.is_heap (down e) -> sweep sweeping_down e ops = Some served ->
     Sorted Z.ge served).
Proof.
  split; intros Hheap Hs.
  - destruct (lower_bound_exists (UpPQ.to_list (up e)) (current e)) as (lo & Hall & Hc).
    by destruct (sweep_up_sorted ops lo e served (conj Hheap (conj Hall Hc)) Hs).
  - destruct (upper_bound_exists (DownPQ.to_list (down e)) (current e)) as (hi & Hall & Hc).
    by destruct (sweep_down_sorted ops hi e served (conj Hheap (conj Hall Hc)) Hs).
Qed.

Lemma is_heap_pair (x y : Z) : x <= y -> heapq.is_heap [x; y].
Proof.
  intros Hxy j Hj. cbn in Hj. assert (j = 1%nat) as -> by lia. exact Hxy.
Qed.

Lemma sweep_order_witness :
  Sorted Z.le [5; 6; 8] /\ Sorted Z.ge [2; 1; -4].
Proof.
  split.
  - apply (sweep_order car_at_3
             [OpMoveToNext; OpAddRequest 6; OpMoveToNext; OpMoveToNext]).
    + apply is_heap_pair. lia.
    + vm_compute. reflexivity.
  - apply (sweep_order (mkElevator "B" 3 Down [] [-2; 4] [])
             [OpMoveToNext; OpAddRequest 1; OpMoveToNext; OpMoveToNext]).
    + apply is_heap_pair. lia.
    + vm_compute. reflexivity.
Defined.

(** * Further properties of the code *)

(** ** The containers *)

Lemma walk_append_after :
  forall cur node : LinkedNodes.ListNode,
    LinkedNodes.walk (LinkedNodes.append_after cur node)
    = LinkedNodes.walk cur ++ LinkedNodes.walk node.
Proof.
  fix IH 1. intros [f [next|]] node; cbn; [|done].
  f_equal. apply IH.
Qed.

Lemma linked_append_to_list (head : LinkedNodes.t) (floor : Z) :
  LinkedNodes.to_list (LinkedNodes.append head floor)
  = LinkedList.append (LinkedNodes.to_list head) floor.
Proof.
  unfold LinkedNodes.append, LinkedList.append. destruct head as [h|]; cbn; [|done].
  apply walk_append_after.
Qed.

(** X1. The linked list hands back the floors in the order they were
    appended: appending [floors] one by one to a list and reading it with
    [to_list] gives what was there before followed by [floors].  So the chain
    of nodes behaves as the plain list the cars' histories are modelled by. *)
Theorem linked_list_keeps_order (head : LinkedNodes.t) (floors : list Z) :
  LinkedNodes.to_list (fold_left LinkedNodes.append floors head)
  = fold_left LinkedList.append floors (LinkedNodes.to_list head)
  /\ fold_left LinkedList.append floors (LinkedNodes.to_list head)
     = LinkedNodes.to_list head ++ floors.
Proof.
  revert head. induction floors as [|f floors IH]; intros head; cbn [fold_left].
  - by rewrite app_nil_r.
  - destruct (IH (LinkedNodes.append head f)) as [IH1 IH2].
    rewrite linked_append_to_list in IH1, IH2. split; [exact IH1|].
    rewrite IH2. unfold LinkedList.append. by rewrite <- app_assoc.
Qed.

Lemma stack_pop_push {A} (d : list A) (x : A) :
  Stack.pop (Stack.push d x) = (Some x, d).
Proof. unfold Stack.pop, Stack.push. by rewrite last_snoc, removelast_last. Qed.

(** X2. The undo stack is last-in first-out: after pushing [xs] on a stack,
    as many pops return [xs] backwards and leave the stack as it was; and a
    pop on an empty stack returns [None] and leaves it empty. *)
Theorem stack_is_lifo {A} (d xs : list A) :
  pop_n Stack.pop (length xs) (fold_left Stack.push xs d) = (map Some (rev xs), d)
  /\ pop_n Stack.pop 1 (@nil A) = ([None], []).
Proof.
  split; [|reflexivity].
  revert d. induction xs as [|x xs IH] using rev_ind; intros d; [done|].
  rewrite fold_left_app, length_app, Nat.add_comm, rev_unit. cbn [fold_left length Nat.add pop_n].
  rewrite stack_pop_push, IH. reflexivity.
Qed.

(** X3. The incoming queue is first-in first-out: popping a queue to which
    [xs] were pushed returns the entries that were there already, then [xs]
    in the order pushed, and leaves it empty; the next pop returns [None]. *)
Theorem request_queue_is_fifo (q xs : list Z) :
  pop_n RequestQueue.pop (length (q ++ xs)) (fold_left RequestQueue.push xs q)
    = (map Some (q ++ xs), [])
  /\ pop_n RequestQueue.pop (S (length (q ++ xs))) (fold_left RequestQueue.push xs q)
    = (map Some (q ++ xs) ++ [None], []).
Proof.
  assert (Hpush : fold_left RequestQueue.push xs q = q ++ xs).
  { revert q. induction xs as [|x xs IH]; intros q; cbn [fold_left].
    - by rewrite app_nil_r.
    - rewrite IH. unfold RequestQueue.push. by rewrite <- app_assoc. }
  rewrite Hpush. generalize (q ++ xs). clear. intros l. split.
  - induction l as [|x l IH]; [done|]. cbn [length pop_n RequestQueue.pop].
    by rewrite IH.
  - induction l as [|x l IH]; [done|].
    cbn [length pop_n RequestQueue.pop] in *. by rewrite IH.
Qed.

(** ** The two priority queues *)

Lemma heap_head_min (x : Z) (heap : list Z) :
  heapq.is_heap heap -> head heap = Some x -> Forall (fun y => x <= y) heap.
Proof.
  destruct heap as [|y heap]; [done|]. intros Hh [= ->].
  by apply heap_root_min_Forall.
Qed.

(** X4. [peek] announces what the next [pop] returns, on an empty queue both
    give [None] and [pop] leaves it empty; and when the list is a heap the
    Up-queue's peek is the lowest pending floor and the Down-queue's peek the
    highest. *)
Theorem peek_is_next_pop (heap : list Z) :
  UpPQ.peek heap = fst (UpPQ.pop heap)
  /\ DownPQ.peek heap = fst (DownPQ.pop heap)
  /\ (heap = [] -> UpPQ.pop heap = (None, []) /\ DownPQ.pop heap = (None, []))
  /\ (heapq.is_heap heap ->
        (forall t, UpPQ.peek heap = Some t ->
           t ∈ UpPQ.to_list heap /\ Forall (fun y => t <= y) (UpPQ.to_list heap))
        /\ (forall t, DownPQ.peek heap = Some t ->
           t ∈ DownPQ.to_list heap /\ Forall (fun y => y <= t) (DownPQ.to_list heap))).
Proof.
  split; [|split; [|split]].
  - unfold UpPQ.pop. destruct heap as [|x l]; [done|].
    destruct (heappop_cons x l) as (r & h & Hp). rewrite Hp. cbn [fst].
    by apply (peek_of_heappop _ _ h).
  - unfold DownPQ.pop. destruct heap as [|x l]; [done|].
    destruct (heappop_cons x l) as (r & h & Hp). rewrite Hp. cbn [fst].
    apply heappop_head in Hp. cbn in Hp. by injection Hp as ->.
  - by intros ->.
  - intros Hh. unfold UpPQ.peek, DownPQ.peek, UpPQ.to_list, DownPQ.to_list.
    destruct heap as [|x l]; [done|].
    pose proof (heap_root_min_Forall x l Hh) as Hmin.
    split; intros t [= <-].
    + split; [apply list_elem_of_here | done].
    + split; [cbn; apply list_elem_of_here |].
      apply Forall_fmap. eapply Forall_impl; [exact Hmin|]. cbn. intros y Hy. lia.
Qed.

Lemma peek_is_next_pop_witness :
  Forall (fun y => 5 <= y) (UpPQ.to_list [5; 8; 6])
  /\ Forall (fun y => y <= -2) (DownPQ.to_list [2; 7; 4]).
Proof.
  assert (H3 : forall a b c : Z, a <= b -> a <= c -> heapq.is_heap [a; b; c]).
  { intros a b c Hb Hc j Hj. cbn in Hj.
    assert (Hj' : j = 1%nat \/ j = 2%nat) by lia.
    destruct Hj' as [-> | ->]; assumption. }
  split.
  - destruct (peek_is_next_pop [5; 8; 6]) as (_ & _ & _ & H).
    destruct H as [H _]; [apply H3; lia|]. by apply (H 5).
  - destruct (peek_is_next_pop [2; 7; 4]) as (_ & _ & _ & H).
    destruct H as [_ H]; [apply H3; lia|]. by apply (H (-2)).
Defined.

Lemma heappop_length heap t h :
  heapq.heappop heap = Some (t, h) -> length heap = S (length h).
Proof. intros Hp. apply heappop_perm in Hp. by rewrite Hp. Qed.

Lemma drain_up_sorted (n : nat) : forall heap,
  heapq.is_heap heap -> length heap = n ->
  drain UpPQ.pop n heap ≡ₚ heap /\ StronglySorted Z.le (drain UpPQ.pop n heap).
Proof.
  induction n as [|n IH]; intros heap Hh Hlen.
  - destruct heap; [|done]. split; [done|constructor].
  - destruct heap as [|x l]; [done|]. cbn [drain]. unfold UpPQ.pop.
    destruct (heappop_cons x l) as (t & h & Hp). rewrite Hp.
    destruct (heappop_heap _ _ _ Hh Hp) as (Hh' & Hmin).
    pose proof (heappop_length _ _ _ Hp) as Hl.
    destruct (IH h Hh') as (Hperm & Hsorted); [lia|].
    split.
    + rewrite Hperm. symmetry. by apply heappop_perm.
    + constructor; [done|]. by rewrite Hperm.
Qed.

Lemma drain_down_sorted (n : nat) : forall heap,
  heapq.is_heap heap -> length heap = n ->
  drain DownPQ.pop n heap ≡ₚ DownPQ.to_list heap
  /\ StronglySorted (flip Z.le) (drain DownPQ.pop n heap).
Proof.
  unfold DownPQ.to_list.
  induction n as [|n IH]; intros heap Hh Hlen.
  - destruct heap; [|done]. split; [done|constructor].
  - destruct heap as [|x l]; [done|]. cbn [drain]. unfold DownPQ.pop.
    destruct (heappop_cons x l) as (t & h & Hp). rewrite Hp.
    destruct (heappop_heap _ _ _ Hh Hp) as (Hh' & Hmin).
    pose proof (heappop_length _ _ _ Hp) as Hl.
    destruct (IH h Hh') as (Hperm & Hsorted); [lia|].
    split.
    + rewrite Hperm, (heappop_perm _ _ _ Hp). done.
    + constructor; [done|]. rewrite Hperm. apply Forall_fmap.
      eapply Forall_impl; [exact Hmin|]. cbn. unfold flip. intros y Hy. lia.
Qed.

(** X5. Emptying a queue with [pop] is a heap sort: from a heap, the pops of
    the Up-queue return its floors in ascending order and the pops of the
    Down-queue in descending order - exactly the lists [print_status] shows
    for the two queues. *)
Theorem drain_is_sorted (heap : list Z) :
  heapq.is_heap heap ->
  drain UpPQ.pop (length heap) heap = sorted (UpPQ.to_list heap)
  /\ drain DownPQ.pop (length heap) heap = sorted_reverse (DownPQ.to_list heap).
Proof.
  intros Hh. split.
  - destruct (drain_up_sorted (length heap) heap Hh eq_refl) as (Hperm & Hsorted).
    unfold sorted, UpPQ.to_list.
    apply (StronglySorted_unique Z.le); [done| |by rewrite merge_sort_Permutation].
    apply StronglySorted_merge_sort; apply _.
  - destruct (drain_down_sorted (length heap) heap Hh eq_refl) as (Hperm & Hsorted).
    unfold sorted_reverse.
    assert (Htr : Transitive (flip Z.le)) by (intros x y z; unfold flip; lia).
    apply (StronglySorted_unique_strong (flip Z.le)).
    + intros x1 x2 _ _. unfold flip. lia.
    + done.
    + apply Sorted_StronglySorted; [done|].
      apply Sorted_reverse, Sorted_merge_sort. apply _.
    + by rewrite reverse_Permutation, merge_sort_Permutation.
Qed.

Lemma drain_is_sorted_witness :
  drain UpPQ.pop 3 [5; 8; 6] = [5; 6; 8]
  /\ drain DownPQ.pop 3 [5; 8; 6] = [-5; -6; -8].
Proof.
  assert (Hh : heapq.is_heap [5; 8; 6]).
  { intros j Hj. cbn in Hj.
    assert (Hj' : j = 1%nat \/ j = 2%nat) by lia.
    destruct Hj' as [-> | ->]; cbn; lia. }
  destruct (drain_is_sorted [5; 8; 6] Hh) as [Hu Hd].
  split; [exact Hu | exact Hd].
Defined.

Lemma heappush_head (heap : list Z) (x : Z) :
  heapq.is_heap heap ->
  head (heapq.heappush heap x)
  = Some (match head heap with Some m => Z.min x m | None => x end).
Proof.
  intros Hh.
  pose proof (heappush_heap heap x Hh) as Hh'.
  pose proof (heappush_perm heap x) as Hperm.
  destruct (heapq.heappush heap x) as [|y rest] eqn:Hpush.
  { apply Permutation_nil_cons in Hperm. done. }
  cbn [head]. f_equal.
  pose proof (heap_root_min_Forall y rest Hh') as Hmin.
  rewrite Hperm in Hmin. apply Forall_cons in Hmin as [Hyx Hmin].
  assert (Hy : y ∈ x :: heap) by (rewrite <- Hperm; apply list_elem_of_here).
  destruct heap as [|m l]; cbn [head].
  - apply list_elem_of_singleton in Hy. done.
  - pose proof (heap_root_min_Forall m l Hh) as Hm.
    apply Forall_cons in Hmin as [Hym _].
    apply elem_of_cons in Hy as [-> | Hy]; [lia|].
    rewrite Forall_forall in Hm. apply Hm in Hy. lia.
Qed.

(** X6. [push] keeps a queue a heap, adds the floor once and nothing else,
    and afterwards the peek is the lower of the floor and the old peek for
    the Up-queue, the higher of the two for the Down-queue. *)
Theorem push_keeps_queue (heap : list Z) (F : Z) :
  heapq.is_heap heap ->
  (heapq.is_heap (UpPQ.push heap F)
   /\ UpPQ.to_list (UpPQ.push heap F) ≡ₚ F :: UpPQ.to_list heap
   /\ UpPQ.peek (UpPQ.push heap F)
      = Some (match UpPQ.peek heap with Some m => Z.min F m | None => F end))
  /\ (heapq.is_heap (DownPQ.push heap F)
   /\ DownPQ.to_list (DownPQ.push heap F) ≡ₚ F :: DownPQ.to_list heap
   /\ DownPQ.peek (DownPQ.push heap F)
      = Some (match DownPQ.peek heap with Some m => Z.max F m | None => F end)).
Proof.
  intros Hh. split; (split; [by apply heappush_heap|]); split.
  - apply heappush_perm.
  - pose proof (heappush_head heap F Hh) as Hhd.
    unfold UpPQ.push, UpPQ.peek.
    destruct (heapq.heappush heap F) as [|y rest]; [done|].
    cbn in Hhd. injection Hhd as ->. by destruct heap.
  - unfold DownPQ.to_list, DownPQ.push. rewrite heappush_perm. cbn.
    by rewrite Z.opp_involutive.
  - pose proof (heappush_head heap (- F) Hh) as Hhd.
    unfold DownPQ.push, DownPQ.peek.
    destruct (heapq.heappush heap (- F)) as [|y rest]; [done|].
    cbn in Hhd. injection Hhd as ->. destruct heap as [|m l]; cbn; f_equal; lia.
Qed.

Lemma push_keeps_queue_witness :
  UpPQ.peek (UpPQ.push [5; 8] 3) = Some 3
  /\ DownPQ.peek (DownPQ.push [-9; -4] 6) = Some 9.
Proof.
  split.
  - destruct (push_keeps_queue [5; 8] 3) as ((_ & _ & H) & _);
      [apply is_heap_pair; lia | exact H].
  - destruct (push_keeps_queue [-9; -4] 6) as (_ & (_ & _ & H));
      [apply is_heap_pair; lia | exact H].
Defined.

(** ** One car *)

Lemma serve_up_served (e : Elevator) :
  snd (serve_up e) =
    match up e, down e with
    | u :: _, _ => Some u
    | [], d :: _ => Some (- d)
    | [], [] => None
    end.
Proof.
  destruct (up e) as [|u us] eqn:Hu.
  - destruct (down e) as [|d ds] eqn:Hd.
    + by rewrite serve_up_nothing.
    + destruct (heappop_cons d ds) as (t & h & Hp).
      rewrite (serve_up_pops_down e t h) by (done || by rewrite Hd).
      apply heappop_head in Hp. cbn in Hp. by injection Hp as ->.
  - destruct (heappop_cons u us) as (t & h & Hp).
    rewrite (serve_up_pops_up e t h) by (by rewrite Hu).
    apply heappop_head in Hp. cbn in Hp. by injection Hp as ->.
Qed.

Lemma serve_down_served (e : Elevator) :
  snd (serve_down e) =
    match down e, up e with
    | d :: _, _ => Some (- d)
    | [], u :: _ => Some u
    | [], [] => None
    end.
Proof.
  destruct (down e) as [|d ds] eqn:Hd.
  - destruct (up e) as [|u us] eqn:Hu.
    + by rewrite serve_down_nothing.
    + destruct (heappop_cons u us) as (t & h & Hp).
      rewrite (serve_down_pops_up e t h) by (done || by rewrite Hu).
      apply heappop_head in Hp. cbn in Hp. by injection Hp as ->.
  - destruct (heappop_cons d ds) as (t & h & Hp).
    rewrite (serve_down_pops_down e t h) by (by rewrite Hd).
    apply heappop_head in Hp. cbn in Hp. by injection Hp as ->.
Qed.

(** X7. [next_target] is [None] exactly when nothing is pending.  For a car
    that is moving it names the floor the next [move_to_next] serves, and so
    it does for an idle car with at most one queue in use.  For an idle car
    with entries in both queues it always names the Up-queue's peek, whereas
    [move_to_next] serves the Down-queue's peek when that floor is strictly
    closer. *)
Theorem next_target_and_move_to_next (e : Elevator) :
  (next_target e = None <-> has_pending e = false)
  /\ (direction e <> Idle -> snd (move_to_next e) = next_target e)
  /\ (direction e = Idle ->
      match UpPQ.peek (up e), DownPQ.peek (down e) with
      | Some up_p, Some down_p =>
          next_target e = Some up_p
          /\ snd (move_to_next e) =
               Some (if Z.abs (up_p - current e) <=? Z.abs (down_p - current e)
                     then up_p else down_p)
      | _, _ => snd (move_to_next e) = next_target e
      end).
Proof.
  unfold next_target, has_pending, move_to_next, serve, idle_choice.
  split; [|split].
  - destruct (direction e), (up e) as [|u us], (down e) as [|d ds]; cbn;
      split; intros; congruence.
  - intros Hd. destruct (direction e) eqn:Hdir; [| |done].
    + rewrite serve_up_served. by destruct (up e), (down e).
    + rewrite serve_down_served. by destruct (up e), (down e).
  - intros ->.
    destruct (up e) as [|u us] eqn:Hu; destruct (down e) as [|d ds] eqn:Hd;
      cbn [UpPQ.peek DownPQ.peek UpPQ.empty DownPQ.empty length Nat.eqb negb].
    + done.
    + cbn [direction set_direction]. rewrite serve_down_served.
      cbn [up down set_direction]. by rewrite Hd.
    + cbn [direction set_direction]. rewrite serve_up_served.
      cbn [up down set_direction]. by rewrite Hu.
    + split; [done|].
      destruct (Z.abs (u - current e) <=? Z.abs (- d - current e));
        cbn [direction set_direction].
      * rewrite serve_up_served. cbn [up down set_direction]. by rewrite Hu.
      * rewrite serve_down_served. cbn [up down set_direction]. by rewrite Hd.
Qed.

Lemma next_target_and_move_to_next_witness :
  next_target idle_car_between = Some 5
  /\ snd (move_to_next idle_car_between) = Some (-3)
  /\ snd (move_to_next car_at_3) = next_target car_at_3.
Proof.
  destruct (next_target_and_move_to_next idle_car_between) as (_ & _ & Hi).
  destruct (next_target_and_move_to_next car_at_3) as (_ & Hm & _).
  specialize (Hi eq_refl). cbn in Hi. destruct Hi as [Hn Hs].
  split; [exact Hn|]. split; [exact Hs|]. apply Hm. discriminate.
Defined.

Lemma has_pending_count (e : Elevator) :
  has_pending e = true <-> (0 < pending_count e)%nat.
Proof.
  unfold has_pending, pending_count, UpPQ.empty, DownPQ.empty.
  destruct (up e), (down e); cbn; split; intros; (done || lia).
Qed.

(** X8. [move_to_next] serves a floor exactly when the car has something
    pending, and it then takes exactly one entry out of the car's queues;
    with nothing pending the queues stay empty. *)
Theorem move_to_next_serves_one (e : Elevator) :
  (snd (move_to_next e) = None <-> has_pending e = false)
  /\ pending_count (fst (move_to_next e)) = pred (pending_count e).
Proof.
  assert (Hnp : has_pending e = false <-> pending_count e = 0%nat).
  { pose proof (has_pending_count e) as [H1 H2].
    destruct (has_pending e); split; intros H; try done.
    - specialize (H1 eq_refl). lia.
    - destruct (pending_count e); [done|]. discriminate H2. lia. }
  rewrite Hnp. unfold pending_count in *.
  destruct (move_to_next_cases e)
    as [(Hs & Hu & Hd & Hu' & Hd' & _)
       |[(t & h & d & Hp & Hm)|(t & h & d & Hp & Hm)]].
  - rewrite Hs, Hu, Hd, Hu', Hd'. done.
  - rewrite Hm. cbn [fst snd up down]. pose proof (heappop_length _ _ _ Hp) as Hl.
    split; [split; intros; [done|lia] | lia].
  - rewrite Hm. cbn [fst snd up down]. pose proof (heappop_length _ _ _ Hp) as Hl.
    split; [split; intros; [done|lia] | lia].
Qed.

(** X9. A step of one car loses and invents nothing: the floor it serves was
    pending in one of the car's queues, it is appended to the history and
    becomes the current floor, and history and queues together hold the same
    floors as before.  When nothing is served, floor and history are as they
    were. *)
Theorem move_to_next_conserves (e : Elevator) :
  let e' := fst (move_to_next e) in
  name e' = name e
  /\ car_load e' ≡ₚ car_load e
  /\ match snd (move_to_next e) with
     | Some t =>
         history e' = history e ++ [t] /\ current e' = t
         /\ (t ∈ UpPQ.to_list (up e) \/ t ∈ DownPQ.to_list (down e))
     | None => history e' = history e /\ current e' = current e
     end.
Proof.
  cbv zeta. unfold car_load, LinkedList.to_list, UpPQ.to_list, DownPQ.to_list.
  destruct (move_to_next_cases e)
    as [(Hs & Hu & Hd & Hu' & Hd' & Hn & Hc & Hh)
       |[(t & h & d & Hp & Hm)|(t & h & d & Hp & Hm)]].
  - rewrite Hs, Hu, Hd, Hu', Hd', Hn, Hc, Hh. done.
  - rewrite Hm. cbn [fst snd name current history up down].
    apply heappop_perm in Hp. split; [done|]. split.
    + rewrite Hp. rewrite <- app_assoc. cbn. done.
    + split; [done|]. split; [done|]. left. rewrite Hp. apply list_elem_of_here.
  - rewrite Hm. cbn [fst snd name current history up down].
    apply heappop_perm in Hp. split; [done|]. split.
    + rewrite Hp. cbn [map]. rewrite <- app_assoc. cbn [app].
      apply Permutation_app_head. apply Permutation_middle.
    + split; [done|]. split; [done|]. right. rewrite Hp. cbn.
      apply list_elem_of_here.
Qed.

(** X10. A car does not reverse in the middle of a sweep: while it is moving
    up and its Up-queue has an entry, [move_to_next] serves the Up-queue's
    peek and leaves the Down-queue alone, however close a Down floor may be,
    and it keeps moving up exactly when the Up-queue still has entries.  The
    same holds for a car moving down. *)
Theorem no_reversal_mid_sweep (e : Elevator) :
  (direction e = Up -> up e <> [] ->
     serves_from_up e
     /\ (direction (fst (move_to_next e)) = Up <-> up (fst (move_to_next e)) <> []))
  /\ (direction e = Down -> down e <> [] ->
     serves_from_down e
     /\ (direction (fst (move_to_next e)) = Down
         <-> down (fst (move_to_next e)) <> [])).
Proof.
  split; intros Hd Hne.
  - destruct (heappop_nonempty _ Hne) as (t & h & Hp).
    unfold serves_from_up, move_to_next, serve. rewrite Hd.
    rewrite (serve_up_pops_up e t h Hne Hp). cbn [fst snd direction up down current].
    split.
    + exists t, h. repeat split; try done. by apply (peek_of_heappop _ _ h).
    + rewrite Hd. unfold after_pop. destruct h, (down e); cbn; split; intros; done.
  - destruct (heappop_nonempty _ Hne) as (t & h & Hp).
    unfold serves_from_down, move_to_next, serve. rewrite Hd.
    rewrite (serve_down_pops_down e t h Hne Hp). cbn [fst snd direction up down current].
    split.
    + exists (- t), h. rewrite Z.opp_involutive. repeat split; try done.
      apply heappop_head in Hp. by destruct (down e); cbn in *; simplify_eq.
    + rewrite Hd. unfold after_pop. destruct h, (up e); cbn; split; intros; done.
Qed.

Lemma no_reversal_mid_sweep_witness :
  serves_from_up car_at_3
  /\ (direction (fst (move_to_next car_at_3)) = Up
      <-> up (fst (move_to_next car_at_3)) <> []).
Proof.
  destruct (no_reversal_mid_sweep car_at_3) as [H _].
  apply H; [reflexivity | discriminate].
Defined.

(** X11. In every session reached from the initial one the pending floors of
    a car lie on their side of it: every Up-queue floor is at or above the
    car's floor and every Down-queue floor at or below it.  Hence a floor
    served from the Up-queue never takes the car down, and one served from
    the Down-queue never takes it up. *)
Theorem pending_floors_on_their_side (cmds : list Command) (s : Sim) (c : CarId) :
  run initial cmds = Some s ->
  let e := get_car s c in
  Forall (fun y => current e <= y) (UpPQ.to_list (up e))
  /\ Forall (fun y => y <= current e) (DownPQ.to_list (down e))
  /\ (forall t, snd (move_to_next e) = Some t ->
        (t ∈ UpPQ.to_list (up e) /\ current e <= t)
        \/ (t ∈ DownPQ.to_list (down e) /\ t <= current e)).
Proof.
  intros Hr. cbv zeta.
  assert (Hord : car_ordered (get_car s c)).
  { destruct (reachable_ordered s (ex_intro _ cmds Hr)) as [HA HB]. by destruct c. }
  destruct Hord as (_ & Hu & Hd). split; [done|]. split; [done|].
  intros t Ht.
  unfold UpPQ.to_list, DownPQ.to_list in *.
  destruct (move_to_next_cases (get_car s c))
    as [(Hs & _)|[(t' & h & d & Hp & Hm)|(t' & h & d & Hp & Hm)]].
  - congruence.
  - rewrite Hm in Ht. cbn in Ht. injection Ht as ->.
    apply heappop_perm in Hp. rewrite Hp in Hu.
    apply Forall_cons in Hu as [Hle _].
    left. split; [|done]. rewrite Hp. apply list_elem_of_here.
  - rewrite Hm in Ht. cbn in Ht. injection Ht as <-.
    apply heappop_perm in Hp. rewrite Hp in Hd. cbn in Hd.
    apply Forall_cons in Hd as [Hle _].
    right. split; [|done]. rewrite Hp. cbn. apply list_elem_of_here.
Qed.

Lemma pending_floors_on_their_side_witness :
  Forall (fun y => -3 <= y) [5] /\ Forall (fun y => y <= -3) [].
Proof.
  destruct (pending_floors_on_their_side
              [CmdRequest (-3); CmdRequest 5; CmdStep; CmdRequest 5]
              two_pending_fives CarA) as (Hu & Hd & _).
  - vm_compute. reflexivity.
  - split; [exact Hu | exact Hd].
Defined.

(** *** The car stands where its history ends *)

Lemma add_request_tracks nm e F : car_tracks nm e -> car_tracks nm (add_request e F).
Proof.
  intros [Hn Hl]. unfold car_tracks, at_last_visited, LinkedList.to_list in *.
  rewrite add_request_name. split; [done|].
  unfold add_request.
  destruct (F =? current e) eqn:Heq.
  - apply Z.eqb_eq in Heq. cbn [current history set_history].
    unfold LinkedList.append. by rewrite last_snoc.
  - by destruct (F >? current e).
Qed.

Lemma move_to_next_tracks nm e : car_tracks nm e -> car_tracks nm (fst (move_to_next e)).
Proof.
  intros [Hn Hl]. unfold car_tracks, at_last_visited, LinkedList.to_list in *.
  destruct (move_to_next_cases e)
    as [(_ & _ & _ & _ & _ & -> & -> & ->)
       |[(t & h & d & Hp & ->)|(t & h & d & Hp & ->)]].
  - done.
  - cbn [fst name current history]. by rewrite last_snoc.
  - cbn [fst name current history]. by rewrite last_snoc.
Qed.

Lemma undo_in_elevator_tracks nm v e b :
  car_tracks nm e -> car_tracks nm (undo_in_elevator v e b).1.
Proof.
  intros [Hn Hl]. unfold car_tracks, at_last_visited, LinkedList.to_list in *.
  destruct (undo_in_elevator_fields v e b) as (-> & -> & _ & -> & _). done.
Qed.

Lemma submit_request_tracks s f :
  session_tracks s -> session_tracks (fst (submit_request s f)).
Proof.
  intros [HA HB]. unfold submit_request.
  destruct ((f <? MIN_FLOOR) || (f >? MAX_FLOOR)); [done|].
  destruct (RequestQueue.pop (RequestQueue.push (req_q s) f)) as [[x|] q']; [|done].
  cbv zeta.
  destruct (assign_request_to_elevator x (elevA s) (elevB s));
    cbn [fst get_car set_car elevA elevB]; split; try done;
    by apply add_request_tracks.
Qed.

Lemma undo_last_tracks s : session_tracks s -> session_tracks (fst (undo_last s)).
Proof.
  intros [HA HB]. unfold undo_last.
  destruct (Stack.pop (undo_stack s)) as [[[typ value]|] st]; [|done].
  destruct (String.eqb typ "request"); [|done].
  destruct (match heapq.list_remove value (req_q s) with
            | Some q' => (q', true)
            | None => (req_q s, false)
            end) as [q r0].
  pose proof (undo_in_elevator_tracks "A" value (elevA s) r0 HA) as HA'.
  destruct (undo_in_elevator value (elevA s) r0) as [a ra].
  pose proof (undo_in_elevator_tracks "B" value (elevB s) ra HB) as HB'.
  destruct (undo_in_elevator value (elevB s) ra) as [b rb].
  done.
Qed.

Lemma step_tracks s : session_tracks s -> session_tracks (fst (step s)).
Proof.
  intros [HA HB]. unfold step.
  pose proof (move_to_next_tracks "A" (elevA s) HA) as HA'.
  destruct (move_to_next (elevA s)) as [a ra].
  pose proof (move_to_next_tracks "B" (elevB s) HB) as HB'.
  destruct (move_to_next (elevB s)) as [b rb].
  done.
Qed.

(** X12. In every session reached from the initial one, each car stands on
    the last floor logged in its history, or on floor 0 when its history is
    still empty, and the two cars keep their names A and B. *)
Theorem car_stands_on_last_visited (cmds : list Command) (s : Sim) :
  run initial cmds = Some s ->
  (name (elevA s) = "A"%string /\ name (elevB s) = "B"%string)
  /\ forall c, current (get_car s c)
               = default 0 (last (LinkedList.to_list (history (get_car s c)))).
Proof.
  intros Hr.
  assert (H : session_tracks s).
  { apply (run_preserves session_tracks
             (exec_preserves _ submit_request_tracks undo_last_tracks step_tracks)
             cmds initial s); [|done].
    split; split; reflexivity. }
  destruct H as [[HnA HlA] [HnB HlB]].
  split; [done|]. by intros [|].
Qed.

Lemma car_stands_on_last_visited_witness :
  current (elevA two_pending_fives) = -3 /\ current (elevB two_pending_fives) = 0.
Proof.
  destruct (car_stands_on_last_visited
              [CmdRequest (-3); CmdRequest 5; CmdStep; CmdRequest 5]
              two_pending_fives) as [_ H].
  - vm_compute. reflexivity.
  - split; [exact (H CarA) | exact (H CarB)].
Defined.

(** ** The dispatcher, seen from the caller *)

(** X13. When exactly one car is idle it gets the request, whatever the
    floor and however far it is: an idle car is suitable, so the first rule
    can only pick it or pass, and the second rule then picks it. *)
Theorem idle_car_gets_request (floor : Z) (A B : Elevator) :
  (direction A = Idle -> direction B <> Idle ->
     assign_request_to_elevator floor A B = CarA)
  /\ (direction B = Idle -> direction A <> Idle ->
     assign_request_to_elevator floor A B = CarB).
Proof.
  unfold assign_request_to_elevator, suitable.
  split; intros Hi Hn.
  - rewrite Hi. destruct (direction B); [| |done]; cbn;
      by destruct (_ >=? _) || by destruct (_ <=? _).
  - rewrite Hi. destruct (direction A); [| |done]; cbn;
      by destruct (_ >=? _) || by destruct (_ <=? _).
Qed.

Lemma idle_car_gets_request_witness :
  assign_request_to_elevator 30 (mkElevator "A" 29 Up [] [] []) (new_elevator "B")
  = CarB.
Proof.
  destruct (idle_car_gets_request 30 (mkElevator "A" 29 Up [] [] [])
              (new_elevator "B")) as [_ H].
  apply H; [reflexivity | discriminate].
Defined.

(** X14. The dispatcher never hands a floor to a car it lies behind while a
    suitable car exists: if any of the two cars is suitable, the chosen one
    is.  When neither is suitable the nearer car is chosen, the first on a
    tie. *)
Theorem chosen_car_is_suitable (floor : Z) (A B : Elevator) :
  let r := assign_request_to_elevator floor A B in
  let chosen := match r with CarA => A | CarB => B end in
  (Suitable floor A \/ Suitable floor B -> Suitable floor chosen)
  /\ (~ Suitable floor A -> ~ Suitable floor B ->
      r = if Z.abs (current A - floor) <=? Z.abs (current B - floor)
          then CarA else CarB).
Proof.
  cbv zeta.
  pose proof (suitable_iff floor A) as HA.
  pose proof (suitable_iff floor B) as HB.
  pose proof (Direction_eqb_Idle (direction A)) as HiA.
  pose proof (Direction_eqb_Idle (direction B)) as HiB.
  unfold assign_request_to_elevator.
  destruct (suitable floor A) eqn:HsA, (suitable floor B) eqn:HsB; cbn [andb negb].
  - split; [|intros Hn; exfalso; apply Hn; tauto].
    intros _.
    destruct (Direction_eqb (direction A) Idle && negb (Direction_eqb (direction B) Idle));
      [tauto|].
    destruct (Direction_eqb (direction B) Idle && negb (Direction_eqb (direction A) Idle));
      [tauto|].
    destruct (_ <=? _); tauto.
  - split; [tauto | intros Hn; exfalso; apply Hn; tauto].
  - split; [tauto | intros _ Hn; exfalso; apply Hn; tauto].
  - assert (HnA : Direction_eqb (direction A) Idle = false).
    { destruct (Direction_eqb (direction A) Idle) eqn:Hi; [|done].
      assert (Suitable floor A) by (left; tauto). intuition congruence. }
    assert (HnB : Direction_eqb (direction B) Idle = false).
    { destruct (Direction_eqb (direction B) Idle) eqn:Hi; [|done].
      assert (Suitable floor B) by (left; tauto). intuition congruence. }
    rewrite HnA, HnB. cbn [andb].
    split; [|done]. intros [H | H]; intuition congruence.
Qed.

Lemma chosen_car_is_suitable_witness :
  Suitable 5 (new_elevator "B").
Proof.
  destruct (chosen_car_is_suitable 5 (mkElevator "A" 9 Up [12] [] [9])
              (new_elevator "B")) as [H _].
  apply H. right. left. reflexivity.
Defined.

(** ** The commands *)

(** X15. In a session reached from the initial one the incoming queue is
    empty, so an in-range request is dispatched at once: it is answered with
    the name of the car the dispatcher picks for that very floor, that car
    receives the floor through [add_request], the other car is untouched, the
    ledger grows by the one entry for the request and the incoming queue is
    empty again. *)
Theorem request_is_dispatched_at_once (cmds : list Command) (s : Sim) (F : Z) :
  run initial cmds = Some s ->
  MIN_FLOOR <= F <= MAX_FLOOR ->
  let c := assign_request_to_elevator F (elevA s) (elevB s) in
  let r := submit_request s F in
  req_q s = []
  /\ snd r = Assigned F (name (get_car s c))
  /\ req_q (fst r) = []
  /\ undo_stack (fst r) = undo_stack s ++ [("request"%string, F)]
  /\ get_car (fst r) c = add_request (get_car s c) F
  /\ get_car (fst r) (other_car c) = get_car s (other_car c).
Proof.
  intros Hr HF. cbv zeta.
  pose proof (reachable_req_q_empty s (ex_intro _ cmds Hr)) as Hq.
  rewrite (submit_request_in_range s F HF Hq). cbn [fst snd].
  split; [done|]. split; [done|].
  by destruct (assign_request_to_elevator F (elevA s) (elevB s)).
Qed.

Lemma request_is_dispatched_at_once_witness :
  snd (submit_request two_pending_fives 7) = Assigned 7 "B"
  /\ undo_stack (fst (submit_request two_pending_fives 7))
     = undo_stack two_pending_fives ++ [("request"%string, 7)].
Proof.
  destruct (request_is_dispatched_at_once
              [CmdRequest (-3); CmdRequest 5; CmdStep; CmdRequest 5]
              two_pending_fives 7) as (_ & Ho & _ & Hl & _).
  - vm_compute. reflexivity.
  - unfold MIN_FLOOR, MAX_FLOOR. lia.
  - split; [exact Ho | exact Hl].
Defined.

(** What a call of [move_to_next] reports, and the car's name. *)
Lemma move_to_next_report (e : Elevator) :
  name (fst (move_to_next e)) = name e
  /\ snd (move_to_next e) =
       if has_pending e then Some (current (fst (move_to_next e))) else None.
Proof.
  unfold has_pending, UpPQ.empty, DownPQ.empty.
  destruct (move_to_next_cases e)
    as [(Hs & Hu & Hd & _ & _ & Hn & _)
       |[(t & h & d & Hp & Hm)|(t & h & d & Hp & Hm)]].
  - rewrite Hs, Hu, Hd, Hn. done.
  - rewrite Hm. cbn [fst snd name current].
    apply heappop_length in Hp. destruct (up e); [done|]. done.
  - rewrite Hm. cbn [fst snd name current].
    apply heappop_length in Hp. destruct (down e); [done|].
    split; [done|]. by destruct (up e).
Qed.

(** X16. [step] reports, car A first, every car that had something pending,
    each with the floor it has moved to; the report is empty exactly when no
    car had anything pending.  The incoming queue and the undo ledger are not
    touched. *)
Theorem step_reports_each_pending_car (s : Sim) :
  let s' := fst (step s) in
  snd (step s) =
    (if has_pending (elevA s) then [(name (elevA s), current (elevA s'))] else [])
    ++ (if has_pending (elevB s) then [(name (elevB s), current (elevB s'))] else [])
  /\ (snd (step s) = [] <-> pending s = false)
  /\ req_q s' = req_q s /\ undo_stack s' = undo_stack s.
Proof.
  cbv zeta. unfold step, pending.
  pose proof (move_to_next_report (elevA s)) as [HnA HrA].
  pose proof (move_to_next_report (elevB s)) as [HnB HrB].
  destruct (move_to_next (elevA s)) as [a ra].
  destruct (move_to_next (elevB s)) as [b rb].
  cbn [fst snd elevA elevB req_q undo_stack] in *. subst ra rb.
  rewrite <- HnA, <- HnB.
  destruct (has_pending (elevA s)), (has_pending (elevB s)); cbn;
    repeat split; intros; done.
Qed.

(** *** auto on a session it can finish *)

Lemma move_to_next_count (e : Elevator) :
  pending_count (fst (move_to_next e)) = pred (pending_count e).
Proof.
  unfold pending_count.
  destruct (move_to_next_cases e)
    as [(_ & Hu & Hd & Hu' & Hd' & _)
       |[(t & h & d & Hp & Hm)|(t & h & d & Hp & Hm)]].
  - by rewrite Hu, Hd, Hu', Hd'.
  - rewrite Hm. cbn [fst up down]. apply heappop_length in Hp. lia.
  - rewrite Hm. cbn [fst up down]. apply heappop_length in Hp. lia.
Qed.

Lemma step_state_max_pending (s : Sim) :
  max_pending (step_state s) = pred (max_pending s).
Proof.
  unfold max_pending, step_state, step.
  pose proof (move_to_next_count (elevA s)) as HA.
  pose proof (move_to_next_count (elevB s)) as HB.
  destruct (move_to_next (elevA s)) as [a ra].
  destruct (move_to_next (elevB s)) as [b rb].
  cbn [fst elevA elevB] in *. lia.
Qed.

Lemma pending_max_pending (s : Sim) :
  pending s = false <-> max_pending s = 0%nat.
Proof.
  unfold pending, max_pending.
  pose proof (has_pending_count (elevA s)) as [HA1 HA2].
  pose proof (has_pending_count (elevB s)) as [HB1 HB2].
  destruct (has_pending (elevA s)), (has_pending (elevB s)); cbn [orb];
    split; intros H; try done.
  - specialize (HA1 eq_refl). lia.
  - specialize (HA1 eq_refl). lia.
  - specialize (HB1 eq_refl). lia.
  - destruct (pending_count (elevA s)); [|discriminate HA2; lia].
    destruct (pending_count (elevB s)); [done|discriminate HB2; lia].
Qed.

Lemma auto_loop_completes (m : nat) : forall (fuel : nat) (steps : Z) (s : Sim),
  max_pending s = m -> steps + Z.of_nat m <= SAFETY_CAP -> (m < fuel)%nat ->
  auto_loop fuel steps s
  = Some (mkAuto (Nat.iter m step_state s) (steps + Z.of_nat m) false).
Proof.
  induction m as [|m IH]; intros fuel steps s Hm Hcap Hfuel;
    (destruct fuel as [|fuel]; [lia|]); cbn [auto_loop].
  - apply pending_max_pending in Hm. rewrite Hm. cbn [negb Nat.iter].
    by rewrite Z.add_0_r.
  - assert (Hp : pending s = true).
    { destruct (pending s) eqn:Hp; [done|]. apply pending_max_pending in Hp. lia. }
    rewrite Hp. cbn [negb].
    assert (Hgt : (steps + 1 >? SAFETY_CAP) = false).
    { rewrite Z.gtb_ltb. apply Z.ltb_ge. lia. }
    rewrite Hgt. fold (step_state s).
    rewrite (IH fuel (steps + 1) (step_state s)).
    + rewrite Nat.iter_succ_r. do 2 f_equal. lia.
    + rewrite step_state_max_pending. lia.
    + lia.
    + lia.
Qed.

Lemma served_since_refl (e : Elevator) : served_since e e.
Proof. split; [done|]. exists []. by rewrite app_nil_r. Qed.

Lemma move_to_next_served_since (e0 e : Elevator) :
  served_since e0 e -> served_since e0 (fst (move_to_next e)).
Proof.
  intros (Hn & served & Hh & Hperm). unfold served_since.
  unfold UpPQ.to_list, DownPQ.to_list in *.
  destruct (move_to_next_cases e)
    as [(_ & Hu & Hd & Hu' & Hd' & Hn' & _ & Hh')
       |[(t & h & d & Hp & Hm)|(t & h & d & Hp & Hm)]].
  - rewrite Hn', Hh', Hu', Hd'. rewrite Hu, Hd in Hperm. eauto.
  - rewrite Hm. cbn [fst name history up down]. split; [done|].
    exists (served ++ [t]). rewrite Hh, <- app_assoc. split; [done|].
    rewrite <- Hperm, (heappop_perm _ _ _ Hp). rewrite <- app_assoc. done.
  - rewrite Hm. cbn [fst name history up down]. split; [done|].
    exists (served ++ [- t]). rewrite Hh, <- app_assoc. split; [done|].
    rewrite <- Hperm, (heappop_perm _ _ _ Hp). cbn [map].
    rewrite <- app_assoc. cbn [app]. apply Permutation_app_head.
    apply Permutation_middle.
Qed.

Lemma step_state_served_since (s0 s : Sim) :
  session_served_since s0 s -> session_served_since s0 (step_state s).
Proof.
  intros (HA & HB & Hq & Hst). unfold step_state, step.
  pose proof (move_to_next_served_since _ _ HA) as HA'.
  pose proof (move_to_next_served_since _ _ HB) as HB'.
  destruct (move_to_next (elevA s)) as [a ra].
  destruct (move_to_next (elevB s)) as [b rb].
  done.
Qed.

Lemma iter_step_state_max_pending (n : nat) (s : Sim) :
  max_pending (Nat.iter n step_state s) = (max_pending s - n)%nat.
Proof.
  induction n as [|n IH]; [cbn; lia|].
  rewrite Nat.iter_succ, step_state_max_pending, IH. lia.
Qed.

(** X17. When no car has more than 1000 pending targets, [auto] finishes the
    work: it is not stopped by the safety cap, it makes as many rounds as the
    busier car has targets, and afterwards nothing is pending; each car's
    history is its old history followed by exactly the floors that were
    pending in its queues, each served once.  The incoming queue and the undo
    ledger are not touched. *)
Theorem auto_serves_everything (s : Sim) :
  (pending_count (elevA s) <= 1000)%nat ->
  (pending_count (elevB s) <= 1000)%nat ->
  exists r,
    run_auto s = Some r
    /\ auto_safety_stop r = false
    /\ auto_steps r = Z.of_nat (Nat.max (pending_count (elevA s))
                                        (pending_count (elevB s)))
    /\ pending (auto_state r) = false
    /\ req_q (auto_state r) = req_q s /\ undo_stack (auto_state r) = undo_stack s
    /\ forall c,
         let e := get_car s c in
         let e' := get_car (auto_state r) c in
         up e' = [] /\ down e' = []
         /\ exists served,
              history e' = history e ++ served
              /\ served ≡ₚ UpPQ.to_list (up e) ++ DownPQ.to_list (down e).
Proof.
  intros HA HB. eexists. split.
  { unfold run_auto. apply (auto_loop_completes (max_pending s)); [done| |].
    - unfold max_pending, SAFETY_CAP. lia.
    - unfold max_pending, auto_fuel. lia. }
  cbn [auto_state auto_steps auto_safety_stop].
  split; [done|]. split; [by rewrite Z.add_0_l|].
  set (s' := Nat.iter (max_pending s) step_state s).
  assert (H0 : max_pending s' = 0%nat).
  { subst s'. rewrite iter_step_state_max_pending. lia. }
  assert (Hsince : session_served_since s s').
  { subst s'. apply (iter_preserves (session_served_since s)).
    - apply step_state_served_since.
    - split; [apply served_since_refl|]. split; [apply served_since_refl|]. done. }
  destruct Hsince as (HsA & HsB & Hq & Hst).
  split; [by apply pending_max_pending|]. split; [done|]. split; [done|].
  unfold max_pending, pending_count in H0.
  assert (Hnil : forall l : list Z, length l = 0%nat -> l = []) by (by intros []).
  intros c. cbv zeta.
  assert (Hc : served_since (get_car s c) (get_car s' c)) by (by destruct c).
  assert (Hu : up (get_car s' c) = []) by (destruct c; apply Hnil; cbn; lia).
  assert (Hd : down (get_car s' c) = []) by (destruct c; apply Hnil; cbn; lia).
  split; [done|]. split; [done|].
  destruct Hc as (_ & served & Hh & Hperm). exists served. split; [done|].
  rewrite Hu, Hd in Hperm. cbn in Hperm. by rewrite app_nil_r in Hperm.
Qed.

Lemma auto_serves_everything_witness :
  exists r, run_auto two_pending_fives = Some r
    /\ auto_safety_stop r = false /\ auto_steps r = 1.
Proof.
  destruct (auto_serves_everything two_pending_fives) as (r & Hr & Hs & Hn & _).
  - cbn. lia.
  - cbn. lia.
  - exists r. split; [exact Hr|]. split; [exact Hs | exact Hn].
Defined.

(** *** undo, whatever the ledger holds *)

Lemma lost_one_le (F : Z) (before after : list Z) :
  lost_one F before after -> forall G, (count G after <= count G before)%nat.
Proof.
  intros H G. rewrite (H G). destruct (decide (G = F)); lia.
Qed.

(** X18. [undo] never serves or moves a car and never adds a request: name,
    floor, direction and history of both cars are as before, the ledger has
    lost its last entry, and no floor has more pending entries than before.
    With an empty ledger it answers that there is nothing to undo and the
    session is unchanged. *)
Theorem undo_never_moves_a_car (s : Sim) :
  (forall c, name (get_car (fst (undo_last s)) c) = name (get_car s c)
          /\ current (get_car (fst (undo_last s)) c) = current (get_car s c)
          /\ direction (get_car (fst (undo_last s)) c) = direction (get_car s c)
          /\ history (get_car (fst (undo_last s)) c) = history (get_car s c))
  /\ undo_stack (fst (undo_last s)) = removelast (undo_stack s)
  /\ (forall G, (pending_entries G (fst (undo_last s)) <= pending_entries G s)%nat)
  /\ (undo_stack s = [] -> undo_last s = (s, NothingToUndo)).
Proof.
  destruct (last (undo_stack s)) as [[typ value]|] eqn:Hlast.
  - apply last_Some in Hlast as [st Hst].
    assert (Hne : undo_stack s <> []) by (rewrite Hst; by destruct st).
    destruct (String.eqb_spec typ "request") as [->|Hty].
    + rewrite (undo_last_request s st value Hst). cbn [fst].
      set (rq := bool_decide (value ∈ req_q s)).
      pose proof (undo_in_elevator_fields value (elevA s) rq)
        as (HnA & HcA & HdA & HhA & HuA & HdnA & _).
      destruct (undo_in_elevator value (elevA s) rq) as [a ra]. cbn [fst snd] in *.
      pose proof (undo_in_elevator_fields value (elevB s) ra)
        as (HnB & HcB & HdB & HhB & HuB & HdnB & _).
      destruct (undo_in_elevator value (elevB s) ra) as [b rb]. cbn [fst snd] in *.
      split; [by intros [|]|]. split; [by rewrite Hst, removelast_last|].
      split; [|done].
      intros G. unfold pending_entries, containers.
      cbn [elevA elevB req_q map sum_list sum_list_with]. rewrite HuA, HdnA, HuB, HdnB.
      pose proof (lost_one_le _ _ _ (remove_one_lost value (req_q s)) G).
      pose proof (lost_one_le _ _ _ (lost_one_up value (up (elevA s)) rq) G).
      pose proof (lost_one_le _ _ _
                    (lost_one_down value (down (elevA s))
                       (remove_heapify value (up (elevA s)) rq).2) G).
      pose proof (lost_one_le _ _ _ (lost_one_up value (up (elevB s)) ra) G).
      pose proof (lost_one_le _ _ _
                    (lost_one_down value (down (elevB s))
                       (remove_heapify value (up (elevB s)) ra).2) G).
      unfold RequestQueue.to_list, id. lia.
    + unfold undo_last, Stack.pop. rewrite Hst, last_snoc, removelast_last.
      apply String.eqb_neq in Hty. rewrite Hty. cbn [fst].
      split; [by intros [|]|]. split; [done|]. split; [done|].
      intros Hnil. by destruct st.
  - apply last_None in Hlast.
    unfold undo_last, Stack.pop. rewrite Hlast. cbn [last fst].
    split; [by intros [|]|]. split; [done|]. split; [done|].
    intros _. destruct s; cbn in *. by subst.
Qed.

(** *** status *)

Lemma sorted_perm (l l' : list Z) : l ≡ₚ l' -> sorted l = sorted l'.
Proof.
  intros Hp. unfold sorted.
  apply (StronglySorted_unique Z.le).
  - apply StronglySorted_merge_sort; apply _.
  - apply StronglySorted_merge_sort; apply _.
  - by rewrite !merge_sort_Permutation.
Qed.

Lemma car_status_same (e e' : Elevator) :
  same_car e e' -> car_status e' = car_status e.
Proof.
  intros (Hn & Hc & Hd & Hh & Hu & Hdn). unfold car_status.
  rewrite Hn, Hc, Hd, Hh. cbv zeta. f_equal.
  - by apply sorted_perm.
  - unfold sorted_reverse, DownPQ.to_list. f_equal.
    apply sorted_perm. by apply Permutation_map.
Qed.

(** X19. [print_status] cannot tell two sessions apart that differ only in
    how the heaps are laid out in their lists: when the cars agree on name,
    floor, direction and history and every queue holds the same floors, and
    the incoming queue and ledger are equal, what is printed is the same. *)
Theorem status_ignores_heap_layout (s s' : Sim) :
  same_session s s' -> print_status s' = print_status s.
Proof.
  intros (HA & HB & Hq & Hst). unfold print_status.
  by rewrite (car_status_same _ _ HA), (car_status_same _ _ HB), Hq, Hst.
Qed.

Lemma status_ignores_heap_layout_witness :
  print_status (mkSim (mkElevator "A" 0 Idle [1; 3; 5] [] []) (new_elevator "B") [] [])
  = print_status (mkSim (mkElevator "A" 0 Idle [1; 5; 3] [] []) (new_elevator "B") [] []).
Proof.
  apply status_ignores_heap_layout.
  split; [|split; [|split]]; try reflexivity.
  - unfold same_car. cbn.
    split; [reflexivity|]. split; [reflexivity|]. split; [reflexivity|].
    split; [reflexivity|]. split; [|reflexivity].
    apply perm_skip. apply perm_swap.
  - unfold same_car. cbn. repeat (split; [reflexivity|]). reflexivity.
Defined.

(** *** What undo does to one queue *)

(** X20. The removal step of the undo branch leaves a heap behind: when the
    value is in the list, one occurrence is taken out, the rest is rebuilt
    into a heap by [heapify] and the removal is flagged; when it is not, the
    list and the flag are returned as they were. *)
Theorem remove_heapify_effect (v : Z) (heap : list Z) (removed : bool) :
  (v ∈ heap ->
     heap ≡ₚ v :: (remove_heapify v heap removed).1
     /\ heapq.is_heap (remove_heapify v heap removed).1
     /\ (remove_heapify v heap removed).2 = true)
  /\ (v ∉ heap -> remove_heapify v heap removed = (heap, removed)).
Proof.
  unfold remove_heapify. split; intros Hin.
  - destruct (heapq.list_remove v heap) as [l'|] eqn:Hr.
    + cbn [fst snd]. split; [|split; [apply heapify_heap | done]].
      rewrite heapify_perm. by apply list_remove_perm.
    + apply list_remove_None in Hr. done.
  - apply list_remove_None in Hin. by rewrite Hin.
Qed.

Lemma remove_heapify_effect_witness :
  [1; 2; 3; 5] ≡ₚ 2 :: (remove_heapify 2 [1; 2; 3; 5] false).1
  /\ heapq.is_heap (remove_heapify 2 [1; 2; 3; 5] false).1
  /\ (remove_heapify 2 [1; 2; 3; 5] false).2 = true.
Proof.
  destruct (remove_heapify_effect 2 [1; 2; 3; 5] false) as [H _].
  apply H. apply list_elem_of_In. cbn. tauto.
Defined.

(** ** Sessions reached from the initial state, once more *)

(** X21. In every session reached from the initial one, the peek of a car's
    Up-queue is the nearest pending floor above the car: it is at or above
    the car's floor and no Up-queue floor is lower.  The peek of the
    Down-queue is the nearest pending floor below. *)
Theorem peek_is_nearest_pending (cmds : list Command) (s : Sim) (c : CarId) :
  run initial cmds = Some s ->
  let e := get_car s c in
  (forall t, UpPQ.peek (up e) = Some t ->
     current e <= t /\ Forall (fun y => t <= y) (UpPQ.to_list (up e)))
  /\ (forall t, DownPQ.peek (down e) = Some t ->
     t <= current e /\ Forall (fun y => y <= t) (DownPQ.to_list (down e))).
Proof.
  intros Hr. cbv zeta.
  assert (Hord : car_ordered (get_car s c)).
  { destruct (reachable_ordered s (ex_intro _ cmds Hr)) as [HA HB]. by destruct c. }
  destruct Hord as ([Hhu Hhd] & Hu & Hd).
  unfold UpPQ.peek, DownPQ.peek, UpPQ.to_list, DownPQ.to_list in *.
  split; intros t Ht.
  - destruct (up (get_car s c)) as [|x l]; [done|]. injection Ht as <-.
    apply Forall_cons in Hu as [Hx _]. split; [done|].
    by apply heap_root_min_Forall.
  - destruct (down (get_car s c)) as [|x l]; [done|]. injection Ht as <-.
    cbn in Hd. apply Forall_cons in Hd as [Hx _]. split; [done|].
    apply Forall_fmap. eapply Forall_impl; [by apply heap_root_min_Forall|].
    cbn. intros y Hy. lia.
Qed.

Lemma peek_is_nearest_pending_witness :
  -3 <= 5 /\ Forall (fun y => 5 <= y) [5].
Proof.
  destruct (peek_is_nearest_pending
              [CmdRequest (-3); CmdRequest 5; CmdStep; CmdRequest 5]
              two_pending_fives CarA) as [H _].
  - vm_compute. reflexivity.
  - apply (H 5). reflexivity.
Defined.

Lemma add_request_load (e : Elevator) (F : Z) :
  car_load (add_request e F) ≡ₚ F :: car_load e.
Proof.
  unfold car_load, add_request, LinkedList.to_list, UpPQ.to_list, DownPQ.to_list.
  destruct (F =? current e).
  - cbn [history up down set_history]. unfold LinkedList.append.
    rewrite <- !app_assoc. cbn [app].
    symmetry. apply Permutation_middle.
  - destruct (F >? current e); cbn [history up down set_up set_down].
    + unfold UpPQ.push. rewrite heappush_perm. cbn [app].
      symmetry. apply Permutation_middle.
    + unfold DownPQ.push. rewrite heappush_perm. cbn [map].
      rewrite Z.opp_involutive, !app_assoc. symmetry. apply Permutation_middle.
Qed.

Lemma move_to_next_load (e : Elevator) :
  car_load (fst (move_to_next e)) ≡ₚ car_load e.
Proof.
  pose proof (move_to_next_served_since e e (served_since_refl e))
    as (_ & served & Hh & Hperm).
  unfold car_load, LinkedList.to_list. rewrite Hh, <- app_assoc.
  by apply Permutation_app_head.
Qed.

Lemma undo_in_elevator_load (v : Z) (e : Elevator) (b : bool) :
  car_load (undo_in_elevator v e b).1 ⊆+ car_load e.
Proof.
  assert (Hrem : forall x l, remove_one x l ⊆+ l).
  { intros x l. unfold remove_one.
    destruct (heapq.list_remove x l) as [l'|] eqn:Hr; [|done].
    apply list_remove_perm in Hr. rewrite Hr. by apply submseteq_cons. }
  unfold car_load, LinkedList.to_list, UpPQ.to_list, DownPQ.to_list.
  destruct (undo_in_elevator_fields v e b) as (_ & _ & _ & -> & -> & -> & _).
  apply submseteq_app; [done|]. apply submseteq_app.
  - rewrite remove_heapify_perm. apply Hrem.
  - apply fmap_submseteq. rewrite remove_heapify_perm. apply Hrem.
Qed.

Lemma submit_request_load (s : Sim) (f : Z) :
  req_q s = [] ->
  session_load (fst (submit_request s f)) ≡ₚ
    (if (f <? MIN_FLOOR) || (f >? MAX_FLOOR) then [] else [f]) ++ session_load s.
Proof.
  intros Hq. unfold submit_request, session_load.
  destruct ((f <? MIN_FLOOR) || (f >? MAX_FLOOR)); [done|].
  rewrite Hq. cbn [RequestQueue.push RequestQueue.pop app]. cbv zeta.
  destruct (assign_request_to_elevator f (elevA s) (elevB s));
    cbn [fst get_car set_car elevA elevB]; rewrite add_request_load.
  - done.
  - symmetry. apply Permutation_middle.
Qed.

Lemma step_state_load (s : Sim) : session_load (step_state s) ≡ₚ session_load s.
Proof.
  unfold session_load, step_state, step.
  pose proof (move_to_next_load (elevA s)) as HA.
  pose proof (move_to_next_load (elevB s)) as HB.
  destruct (move_to_next (elevA s)) as [a ra].
  destruct (move_to_next (elevB s)) as [b rb].
  cbn [fst elevA elevB] in *. by rewrite HA, HB.
Qed.

Lemma undo_last_load (s : Sim) : session_load (fst (undo_last s)) ⊆+ session_load s.
Proof.
  unfold undo_last, session_load.
  destruct (Stack.pop (undo_stack s)) as [[[typ value]|] st]; [|done].
  destruct (String.eqb typ "request"); [|done].
  destruct (match heapq.list_remove value (req_q s) with
            | Some q' => (q', true)
            | None => (req_q s, false)
            end) as [q r0].
  pose proof (undo_in_elevator_load value (elevA s) r0) as HA.
  destruct (undo_in_elevator value (elevA s) r0) as [a ra].
  pose proof (undo_in_elevator_load value (elevB s) ra) as HB.
  destruct (undo_in_elevator value (elevB s) ra) as [b rb].
  cbn [fst elevA elevB] in *. by apply submseteq_app.
Qed.

Lemma exec_load (s s' : Sim) (c : Command) :
  req_q s = [] -> exec s c = Some s' ->
  req_q s' = []
  /\ session_load s' ⊆+ accepted [c] ++ session_load s
  /\ (c <> CmdUndo -> session_load s' ≡ₚ accepted [c] ++ session_load s).
Proof.
  intros Hq He. split.
  { apply (exec_preserves (fun s => req_q s = [])
             submit_request_req_q undo_last_req_q
             (fun s H => eq_trans (step_req_q s) H) s c s'); done. }
  destruct c as [f| | |]; cbn [exec accepted] in *.
  - injection He as <-. pose proof (submit_request_load s f Hq) as Hl.
    destruct ((f <? MIN_FLOOR) || (f >? MAX_FLOOR));
      (split; [by apply Permutation_submseteq | done]).
  - injection He as <-. split; [apply undo_last_load | done].
  - injection He as <-. pose proof (step_state_load s) as Hl.
    split; [by apply Permutation_submseteq | done].
  - destruct (run_auto_iter s) as (r & Hr & Hst). rewrite Hr in He.
    cbn [option_map] in He. injection He as <-. rewrite Hst.
    assert (Hl : session_load (Nat.iter (Z.to_nat (auto_steps r)) step_state s)
                 ≡ₚ session_load s).
    { generalize (Z.to_nat (auto_steps r)). intros n.
      induction n as [|n IH]; [done|].
      rewrite Nat.iter_succ, step_state_load. exact IH. }
    split; [by apply Permutation_submseteq | done].
Qed.

Lemma accepted_app (cmds1 cmds2 : list Command) :
  accepted (cmds1 ++ cmds2) = accepted cmds1 ++ accepted cmds2.
Proof.
  induction cmds1 as [|c cmds1 IH]; [done|]. cbn [app accepted].
  destruct c as [f| | |]; try done.
  destruct ((f <? MIN_FLOOR) || (f >? MAX_FLOOR)); [done|]. cbn. by rewrite IH.
Qed.

Lemma run_load (cmds : list Command) : forall s s',
  req_q s = [] -> run s cmds = Some s' ->
  session_load s' ⊆+ session_load s ++ accepted cmds
  /\ (Forall (fun c => c <> CmdUndo) cmds ->
      session_load s' ≡ₚ session_load s ++ accepted cmds).
Proof.
  induction cmds as [|c cmds IH]; intros s s' Hq; cbn [run].
  - intros [= <-]. rewrite app_nil_r. done.
  - destruct (exec s c) as [s1|] eqn:He; [|done]. intros Hr.
    destruct (exec_load s s1 c Hq He) as (Hq1 & Hsub & Hperm).
    destruct (IH s1 s' Hq1 Hr) as (IHsub & IHperm).
    change (c :: cmds) with ([c] ++ cmds). rewrite accepted_app.
    split.
    + etrans; [exact IHsub|].
      rewrite (Permutation_app_comm (accepted [c])) in Hsub.
      rewrite app_assoc. by apply submseteq_app.
    + intros Hno. apply Forall_cons in Hno as [Hc Hno].
      rewrite (IHperm Hno), (Hperm Hc).
      rewrite (Permutation_app_comm (accepted [c])). by rewrite app_assoc.
Qed.

(** X22. No car ever visits or queues a floor that was not requested: in a
    session run from the initial one, the histories and queues of the two
    cars together hold only floors of requests that passed the bounds check,
    each at most as often as it was requested.  When no undo was issued they
    hold exactly those floors, each as often as it was requested: no accepted
    request is lost or served twice. *)
Theorem requests_are_conserved (cmds : list Command) (s : Sim) :
  run initial cmds = Some s ->
  session_load s ⊆+ accepted cmds
  /\ (Forall (fun c => c <> CmdUndo) cmds -> session_load s ≡ₚ accepted cmds).
Proof.
  intros Hr. exact (run_load cmds initial s eq_refl Hr).
Qed.

Lemma requests_are_conserved_witness :
  session_load two_pending_fives ≡ₚ [-3; 5; 5].
Proof.
  destruct (requests_are_conserved
              [CmdRequest (-3); CmdRequest 5; CmdStep; CmdRequest 5]
              two_pending_fives) as [_ H].
  - vm_compute. reflexivity.
  - apply H. repeat constructor; discriminate.
Defined.

(** *** auto on a session it cannot finish *)

Lemma auto_loop_capped (k : nat) : forall (fuel : nat) (steps : Z) (s : Sim),
  (0 < k)%nat -> steps + Z.of_nat k = SAFETY_CAP + 1 ->
  (k <= max_pending s)%nat -> (k <= fuel)%nat ->
  auto_loop fuel steps s
  = Some (mkAuto (Nat.iter k step_state s) (SAFETY_CAP + 1) true).
Proof.
  induction k as [|k IH]; intros fuel steps s Hk Hsteps Hmax Hfuel; [lia|].
  destruct fuel as [|fuel]; [lia|]. cbn [auto_loop].
  assert (Hp : pending s = true).
  { destruct (pending s) eqn:Hp; [done|]. apply pending_max_pending in Hp. lia. }
  rewrite Hp. cbn [negb]. fold (step_state s).
  destruct (decide (k = 0%nat)) as [->|Hk0].
  - assert (Hgt : (steps + 1 >? SAFETY_CAP) = true) by (apply Z.gtb_lt; lia).
    rewrite Hgt. cbn [Nat.iter nat_rect]. do 2 f_equal. lia.
  - assert (Hgt : (steps + 1 >? SAFETY_CAP) = false).
    { rewrite Z.gtb_ltb. apply Z.ltb_ge. lia. }
    rewrite Hgt, Nat.iter_succ_r.
    apply IH; [lia | lia | rewrite step_state_max_pending; lia | lia].
Qed.

(** X23. The safety cap cuts [auto] short when some car has more than 1000
    pending targets: then 1001 rounds are made, the stop is reported, and
    every car is left with 1001 targets fewer (none, if it had fewer).  In
    particular a car with exactly 1001 targets is served completely and the
    stop is reported all the same. *)
Theorem auto_stops_at_cap (s : Sim) :
  (1000 < max_pending s)%nat ->
  exists r,
    run_auto s = Some r
    /\ auto_safety_stop r = true
    /\ auto_steps r = SAFETY_CAP + 1
    /\ auto_state r = Nat.iter 1001 step_state s
    /\ (forall c, pending_count (get_car (auto_state r) c)
                  = (pending_count (get_car s c) - 1001)%nat)
    /\ (pending (auto_state r) = false <-> max_pending s = 1001%nat).
Proof.
  intros Hmax. eexists. split.
  { unfold run_auto. apply (auto_loop_capped 1001).
    - lia.
    - unfold SAFETY_CAP. lia.
    - lia.
    - unfold auto_fuel. lia. }
  cbn [auto_state auto_steps auto_safety_stop].
  split; [done|]. split; [done|]. split; [done|].
  assert (Hcount : forall n c,
            pending_count (get_car (Nat.iter n step_state s) c)
            = (pending_count (get_car s c) - n)%nat).
  { induction n as [|n IH]; intros c; [cbn; lia|].
    rewrite Nat.iter_succ. unfold step_state at 1, step.
    pose proof (move_to_next_count (elevA (Nat.iter n step_state s))) as HA.
    pose proof (move_to_next_count (elevB (Nat.iter n step_state s))) as HB.
    destruct (move_to_next (elevA (Nat.iter n step_state s))) as [a ra].
    destruct (move_to_next (elevB (Nat.iter n step_state s))) as [b rb].
    cbn [fst] in *. pose proof (IH CarA). pose proof (IH CarB).
    destruct c; cbn [get_car elevA elevB] in *; lia. }
  split; [apply Hcount|].
  rewrite pending_max_pending, iter_step_state_max_pending. lia.
Qed.

Lemma auto_stops_at_cap_witness :
  exists r, run_auto busy_state = Some r
    /\ auto_safety_stop r = true
    /\ pending (auto_state r) = false.
Proof.
  destruct (auto_stops_at_cap busy_state) as (r & Hr & Hs & _ & _ & _ & Hp).
  - vm_compute. lia.
  - exists r. split; [exact Hr|]. split; [exact Hs|].
    apply Hp. vm_compute. reflexivity.
Defined.
